(** * Face matching service: the decision logic of [face_recognition.py]

    A shallow embedding of the four route handlers of
    [server/ml-service/app/api/routes/face_recognition.py]:
    [encode_face], [detect_faces], [match_faces] and [batch_match].

    Python's [float] is IEEE 754 binary64, and so is Rocq's primitive
    [float]: [float('inf')] is [infinity], [a < b] is [ltb], [1.0 - d] is
    [sub].  Exceptions are values of a small error monad; a handler's
    [try ... except Exception] turns them into a failure response, so the
    handlers themselves are total functions into their response records. *)

From Stdlib Require Import List String ZArith Bool Lia PeanoNat Permutation.
From Stdlib Require Import Floats DecimalString.
Import ListNotations.

Set Implicit Arguments.
Set Warnings "-inexact-float".

Local Open Scope float_scope.

(** ** Exceptions and the error monad *)

(** An exception with its [str(e)].  The handlers tell [ValueError] (numpy
    raises it on two shapes that do not broadcast) from every other
    [Exception]. *)
Inductive exn : Type :=
| ValueError (msg : string)
| OtherError (msg : string).

Definition str_exn (e : exn) : string :=
  match e with
  | ValueError msg => msg
  | OtherError msg => msg
  end.

Inductive result (A : Type) : Type :=
| Ok (a : A)
| Raise (e : exn).

Arguments Ok {A} a.
Arguments Raise {A} e.

Definition bind {A B : Type} (r : result A) (k : A -> result B) : result B :=
  match r with
  | Ok a => k a
  | Raise e => Raise e
  end.

Notation "x <- c ;; k" := (bind c (fun x => k))
  (at level 61, c at next level, right associativity).

(** A list comprehension whose body may raise: elements are evaluated left
    to right and the first exception leaves the comprehension. *)
Fixpoint comprehension {A B : Type} (f : A -> result B) (xs : list A)
  : result (list B) :=
  match xs with
  | [] => Ok []
  | x :: xs' => y <- f x ;; ys <- comprehension f xs' ;; Ok (y :: ys)
  end.

(** A [for] loop over [xs] threading the loop variables [st]; an exception
    in the body leaves the loop. *)
Fixpoint for_each {A S : Type} (body : S -> A -> result S) (st : S)
  (xs : list A) : result S :=
  match xs with
  | [] => Ok st
  | x :: xs' => st' <- body st x ;; for_each body st' xs'
  end.

(** [enumerate(xs)] *)
Fixpoint enumerate_from {A : Type} (i : nat) (xs : list A) : list (nat * A) :=
  match xs with
  | [] => []
  | x :: xs' => (i, x) :: enumerate_from (S i) xs'
  end.

Definition enumerate {A : Type} (xs : list A) : list (nat * A) :=
  enumerate_from 0 xs.

(** ** numpy on one-dimensional float64 arrays *)

Definition Embedding : Type := list float.

Definition shape_str (n : nat) : string :=
  ("(" ++ NilEmpty.string_of_uint (Nat.to_uint n) ++ ",)")%string.

(** numpy's exception for two shapes that do not broadcast. *)
Definition BroadcastError (len_a len_b : nat) : exn :=
  ValueError ("operands could not be broadcast together with shapes "
                ++ shape_str len_a ++ " " ++ shape_str len_b ++ " ")%string.

Fixpoint zip_sub (a b : list float) : list float :=
  match a, b with
  | x :: a', y :: b' => (x - y) :: zip_sub a' b'
  | _, _ => []
  end.

(** [np.array(a) - np.array(b)]: elementwise on equal lengths; an array of
    length one is broadcast against the other; any other pair of lengths
    raises [ValueError]. *)
Definition np_sub (a b : Embedding) : result (list float) :=
  if Nat.eqb (List.length a) (List.length b) then Ok (zip_sub a b)
  else match a, b with
       | [x], _ => Ok (map (fun y => x - y) b)
       | _, [y] => Ok (map (fun x => x - y) a)
       | _, _ => Raise (BroadcastError (List.length a) (List.length b))
       end.

(** [x.dot(x)].  numpy leaves the order of accumulation to its BLAS; here the
    products are accumulated from [0.0], left to right. *)
Definition np_dot_self (x : list float) : float :=
  fold_left (fun acc v => acc + v * v) x 0.

(** [np.linalg.norm(x)] with the default order on a 1-D array:
    [sqrt(x.dot(x))]. *)
Definition np_linalg_norm (x : list float) : float :=
  sqrt (np_dot_self x).

(** [float(np.linalg.norm(np.array(q) - np.array(emb)))] *)
Definition distance (q emb : Embedding) : result float :=
  diff <- np_sub q emb ;; Ok (np_linalg_norm diff).

(** Python's builtin [min] on a non-empty list: the running minimum is
    replaced only by an item that compares [<] to it. *)
Definition py_min (d : float) (ds : list float) : float :=
  fold_left (fun m x => if x <? m then x else m) ds d.

(** [min(distances) if distances else float('inf')] *)
Definition min_or_inf (distances : list float) : float :=
  match distances with
  | [] => infinity
  | d :: ds => py_min d ds
  end.

(** ** Request and response schemas

    Modelled from the spec: [app/schemas/requests.py] and
    [app/schemas/responses.py] are not part of the sources; the records
    below carry the fields the handlers read and write, and a response
    field a handler does not pass is absent ([None]). *)

Record CandidateEmbeddings : Type := {
  student_id : string;
  embeddings : list Embedding
}.

Record MatchFacesRequest : Type := {
  query_embedding : Embedding;
  candidate_embeddings : list CandidateEmbeddings;
  threshold : float;
  return_all_distances : bool
}.

Record DistanceInfo : Type := {
  di_student_id : string;
  di_min_distance : float
}.

Record MatchResult : Type := {
  mr_student_id : option string;
  mr_distance : float;
  mr_confidence : float;
  mr_status : string
}.

Record MatchFacesResponse : Type := {
  mf_success : bool;
  mf_match : option MatchResult;
  mf_all_distances : option (list DistanceInfo);
  mf_error : option string
}.

Record DetectedFace : Type := {
  embedding : Embedding
}.

Record BatchMatchRequest : Type := {
  detected_faces : list DetectedFace;
  bm_candidate_embeddings : list CandidateEmbeddings;
  confident_threshold : float
}.

Record BatchMatchResult : Type := {
  face_index : nat;
  br_student_id : option string;
  br_distance : float;
  br_status : string
}.

Record BatchMatchResponse : Type := {
  bm_success : bool;
  bm_matches : option (list BatchMatchResult);
  bm_error : option string
}.

(** ** [match_faces] *)

(** [min_distance] of one candidate for the query [q]. *)
Definition min_distance (q : Embedding) (candidate : CandidateEmbeddings)
  : result float :=
  distances <- comprehension (distance q) (embeddings candidate) ;;
  Ok (min_or_inf distances).

(** The loop variables of [match_faces]. *)
Record match_vars : Type := {
  best_match : option string;
  best_distance : float;
  all_distances : list DistanceInfo
}.

Definition match_init : match_vars :=
  {| best_match := None; best_distance := infinity; all_distances := [] |}.

(** The assignments of one iteration, once [min_distance] is known. *)
Definition match_update (request : MatchFacesRequest) (st : match_vars)
  (candidate : CandidateEmbeddings) (d : float) : match_vars :=
  let all :=
    if return_all_distances request
    then all_distances st ++
           [ {| di_student_id := student_id candidate; di_min_distance := d |} ]
    else all_distances st in
  if d <? best_distance st
  then {| best_match := Some (student_id candidate);
          best_distance := d;
          all_distances := all |}
  else {| best_match := best_match st;
          best_distance := best_distance st;
          all_distances := all |}.

(** One iteration of [for candidate in request.candidate_embeddings]. *)
Definition match_body (request : MatchFacesRequest) (st : match_vars)
  (candidate : CandidateEmbeddings) : result match_vars :=
  d <- min_distance (query_embedding request) candidate ;;
  Ok (match_update request st candidate d).

Definition match_loop (request : MatchFacesRequest) : result match_vars :=
  for_each (match_body request) match_init (candidate_embeddings request).

(** What follows the loop: the status decision and the response. *)
Definition match_respond (request : MatchFacesRequest) (st : match_vars)
  : MatchFacesResponse :=
  let '(status, confidence, reported) :=
    if best_distance st <? threshold request
    then ("confident"%string, 1 - best_distance st, best_match st)
    else ("no_match"%string, 0, None) in
  {| mf_success := true;
     mf_match :=
       if best_distance st <? infinity
       then Some {| mr_student_id := reported;
                    mr_distance := best_distance st;
                    mr_confidence := confidence;
                    mr_status := status |}
       else None;
     mf_all_distances :=
       if return_all_distances request then Some (all_distances st) else None;
     mf_error := None |}.

Definition match_faces (request : MatchFacesRequest) : MatchFacesResponse :=
  match match_loop request with
  | Ok st => match_respond request st
  | Raise e =>
      {| mf_success := false;
         mf_match := None;
         mf_all_distances := None;
         mf_error := Some ("Matching error: " ++ str_exn e)%string |}
  end.

(** ** [batch_match] *)

(** The loop variables of the inner loop of [batch_match]. *)
Record batch_vars : Type := {
  b_best_match : option string;
  b_best_distance : float
}.

Definition batch_init : batch_vars :=
  {| b_best_match := None; b_best_distance := infinity |}.

(** The assignments of one inner iteration, once [min_distance] is known. *)
Definition batch_update (st : batch_vars) (candidate : CandidateEmbeddings)
  (d : float) : batch_vars :=
  if d <? b_best_distance st
  then {| b_best_match := Some (student_id candidate); b_best_distance := d |}
  else st.

(** One iteration of the inner [for candidate in ...]. *)
Definition batch_inner_body (q : Embedding) (st : batch_vars)
  (candidate : CandidateEmbeddings) : result batch_vars :=
  d <- min_distance q candidate ;;
  Ok (batch_update st candidate d).

(** The inner loop for one detected face. *)
Definition batch_inner_loop (request : BatchMatchRequest) (q : Embedding)
  : result batch_vars :=
  for_each (batch_inner_body q) batch_init (bm_candidate_embeddings request).

(** The status decision and the result appended for one face. *)
Definition batch_result (request : BatchMatchRequest) (face_idx : nat)
  (st : batch_vars) : BatchMatchResult :=
  let '(status, reported) :=
    if b_best_distance st <? confident_threshold request
    then ("present"%string, b_best_match st)
    else ("unknown"%string, None) in
  {| face_index := face_idx;
     br_student_id := reported;
     br_distance := b_best_distance st;
     br_status := status |}.

(** One iteration of [for face_idx, detected_face in enumerate(...)]. *)
Definition batch_body (request : BatchMatchRequest)
  (matches : list BatchMatchResult) (item : nat * DetectedFace)
  : result (list BatchMatchResult) :=
  let '(face_idx, detected_face) := item in
  st <- batch_inner_loop request (embedding detected_face) ;;
  Ok (matches ++ [batch_result request face_idx st]).

Definition batch_loop (request : BatchMatchRequest)
  : result (list BatchMatchResult) :=
  for_each (batch_body request) [] (enumerate (detected_faces request)).

Definition batch_match (request : BatchMatchRequest) : BatchMatchResponse :=
  match batch_loop request with
  | Ok matches =>
      {| bm_success := true; bm_matches := Some matches; bm_error := None |}
  | Raise e =>
      {| bm_success := false;
         bm_matches := None;
         bm_error := Some ("Batch matching error: " ++ str_exn e)%string |}
  end.

(** ** The embedding provider

    [base64], [PIL], [numpy] and [face_recognition] are external
    collaborators: the handlers only see what their calls return or raise. *)

(** A face location [(top, right, bottom, left)]. *)
Record FaceLocation : Type := {
  top : Z;
  right : Z;
  bottom : Z;
  left : Z
}.

Class Provider : Type := {
  image : Type;
  (** [base64.b64decode(s)] *)
  b64decode : string -> result string;
  (** [np.array(Image.open(BytesIO(image_bytes)).convert("RGB"))] *)
  image_open : string -> result image;
  (** [h, w, _ = image_np.shape] *)
  image_shape : image -> Z * Z;
  (** [face_recognition.face_locations(image_np,
      number_of_times_to_upsample, model)] *)
  face_locations : image -> nat -> string -> result (list FaceLocation);
  (** [face_recognition.face_encodings(image_np, known_face_locations,
      num_jitters, model)] *)
  face_encodings :
    image -> list FaceLocation -> nat -> string -> result (list Embedding)
}.

(** The double nearest to the integer [z]; it is [z] itself below [2^53],
    where CPython converts without rounding. *)
Definition float_of_Z (z : Z) : float :=
  SF2Prim (binary_normalize prec emax z 0 false).

(** A Python integer as an unrounded float: the mantissa is the integer
    itself, whatever its size. *)
Definition exact_of_Z (z : Z) : spec_float :=
  match z with
  | Z0 => S754_zero false
  | Zpos m => S754_finite false m 0
  | Zneg m => S754_finite true m 0
  end.

(** The integers CPython converts to a double without rounding. *)
Definition fits_double (z : Z) : bool := (Z.abs z <? 2 ^ 53)%Z.

(** [a / b] on Python integers (CPython's [long_true_divide]).  A zero
    divisor raises [ZeroDivisionError]; operands that both fit a double are
    converted and divided; otherwise the exact quotient is rounded once to
    the nearest double, ties to even, and [OverflowError] is raised when
    that is out of range.  Neither exception is a [ValueError]. *)
Definition truediv (a b : Z) : result float :=
  if Z.eqb b 0 then Raise (OtherError "division by zero")
  else if fits_double a && fits_double b
  then Ok (float_of_Z a / float_of_Z b)
  else match SFdiv prec emax (exact_of_Z a) (exact_of_Z b) with
       | S754_infinity _ =>
           Raise (OtherError "integer division result too large for a float")
       | q => Ok (SF2Prim q)
       end.

(** [needle in s] on strings. *)
Fixpoint str_in (needle s : string) : bool :=
  if String.prefix needle s then true
  else match s with
       | EmptyString => false
       | String _ s' => str_in needle s'
       end.

(** Modelled from the spec: [app/core/constants.py] is not part of the
    sources; the five error codes are kept apart by name. *)
Inductive error_code : Type :=
| ERROR_NO_FACE
| ERROR_MULTIPLE_FACES
| ERROR_FACE_TOO_SMALL
| ERROR_INVALID_IMAGE
| ERROR_PROCESSING.

Record EncodeFaceRequest : Type := {
  ef_image_base64 : string;
  validate_single : bool;
  ef_min_face_area_ratio : float;
  ef_num_jitters : nat
}.

Record EncodeFaceMetadata : Type := {
  em_face_area_ratio : float;
  em_image_dimensions : list Z
}.

Record EncodeFaceResponse : Type := {
  ef_success : bool;
  ef_embedding : option Embedding;
  ef_face_location : option FaceLocation;
  ef_metadata : option EncodeFaceMetadata;
  ef_error : option string;
  ef_error_code : option error_code
}.

Record DetectFacesRequest : Type := {
  df_image_base64 : string;
  df_model : string;
  df_min_face_area_ratio : float;
  df_num_jitters : nat
}.

Record DetectedFaceInfo : Type := {
  dfi_embedding : Embedding;
  dfi_location : FaceLocation;
  dfi_face_area_ratio : float
}.

(** [processing_time_ms] is wall-clock time and is left out. *)
Record DetectFacesMetadata : Type := {
  dm_image_dimensions : list Z
}.

Record DetectFacesResponse : Type := {
  df_success : bool;
  df_faces : option (list DetectedFaceInfo);
  df_count : option nat;
  df_metadata : option DetectFacesMetadata;
  df_error : option string
}.

Definition face_area (loc : FaceLocation) : Z :=
  (bottom loc - top loc) * (right loc - left loc).

Section Handlers.
Context {P : Provider}.

(** ** [encode_face] *)

Definition encode_failure (msg : string) (code : error_code)
  : EncodeFaceResponse :=
  {| ef_success := false;
     ef_embedding := None;
     ef_face_location := None;
     ef_metadata := None;
     ef_error := Some msg;
     ef_error_code := Some code |}.

(** The body of the second [try] of [encode_face]. *)
Definition encode_face_try (request : EncodeFaceRequest)
  (image_bytes : string) : result EncodeFaceResponse :=
  image_np <- image_open image_bytes ;;
  let '(h, w) := image_shape image_np in
  let image_area := (h * w)%Z in
  locations <- face_locations image_np 1 "hog" ;;
  match locations with
  | [] => Ok (encode_failure "No face detected" ERROR_NO_FACE)
  | loc :: _ =>
      if validate_single request && (1 <? List.length locations)%nat
      then Ok (encode_failure "Multiple faces detected" ERROR_MULTIPLE_FACES)
      else
        face_area_ratio <- truediv (face_area loc) image_area ;;
        if face_area_ratio <? ef_min_face_area_ratio request
        then Ok (encode_failure "Face too small — move closer to camera"
                   ERROR_FACE_TOO_SMALL)
        else
          encodings <- face_encodings image_np (firstn 1 locations)
                         (ef_num_jitters request) "small" ;;
          match encodings with
          | [] => Raise (OtherError "list index out of range")
          | encoding :: _ =>
              Ok {| ef_success := true;
                    ef_embedding := Some encoding;
                    ef_face_location := Some loc;
                    ef_metadata :=
                      Some {| em_face_area_ratio := face_area_ratio;
                              em_image_dimensions := [w; h] |};
                    ef_error := None;
                    ef_error_code := None |}
          end
  end.

Definition encode_face (request : EncodeFaceRequest) : EncodeFaceResponse :=
  match b64decode (ef_image_base64 request) with
  | Raise _ => encode_failure "Invalid base64 image" ERROR_INVALID_IMAGE
  | Ok image_bytes =>
      match encode_face_try request image_bytes with
      | Ok response => response
      | Raise (ValueError error_msg) =>
          encode_failure error_msg
            (if str_in "No face" error_msg then ERROR_NO_FACE
             else if str_in "Multiple" error_msg then ERROR_MULTIPLE_FACES
             else if str_in "too small" error_msg then ERROR_FACE_TOO_SMALL
             else ERROR_PROCESSING)
      | Raise (OtherError msg) =>
          encode_failure ("Processing error: " ++ msg) ERROR_PROCESSING
      end
  end.

(** ** [detect_faces] *)

Definition detect_failure (msg : string) : DetectFacesResponse :=
  {| df_success := false;
     df_faces := None;
     df_count := None;
     df_metadata := None;
     df_error := Some msg |}.

Definition detect_success (faces : list DetectedFaceInfo) (h w : Z)
  : DetectFacesResponse :=
  {| df_success := true;
     df_faces := Some faces;
     df_count := Some (List.length faces);
     df_metadata := Some {| dm_image_dimensions := [w; h] |};
     df_error := None |}.

(** One iteration of [for (top, right, bottom, left), enc in zip(...)]. *)
Definition detect_body (request : DetectFacesRequest) (image_area : Z)
  (faces : list DetectedFaceInfo) (item : FaceLocation * Embedding)
  : result (list DetectedFaceInfo) :=
  let '(loc, enc) := item in
  face_area_ratio <- truediv (face_area loc) image_area ;;
  if face_area_ratio <? df_min_face_area_ratio request
  then Ok faces
  else Ok (faces ++ [ {| dfi_embedding := enc;
                         dfi_location := loc;
                         dfi_face_area_ratio := face_area_ratio |} ]).

(** The body of the second [try] of [detect_faces]. *)
Definition detect_faces_try (request : DetectFacesRequest)
  (image_bytes : string) : result DetectFacesResponse :=
  image_np <- image_open image_bytes ;;
  let '(h, w) := image_shape image_np in
  let image_area := (h * w)%Z in
  locations <- face_locations image_np 1 (df_model request) ;;
  match locations with
  | [] => Ok (detect_success [] h w)
  | _ :: _ =>
      encodings <- face_encodings image_np locations
                     (df_num_jitters request) "small" ;;
      faces <- for_each (detect_body request image_area) []
                 (combine locations encodings) ;;
      Ok (detect_success faces h w)
  end.

Definition detect_faces (request : DetectFacesRequest)
  : DetectFacesResponse :=
  match b64decode (df_image_base64 request) with
  | Raise _ => detect_failure "Invalid base64 image"
  | Ok image_bytes =>
      match detect_faces_try request image_bytes with
      | Ok response => response
      | Raise e => detect_failure ("Detection error: " ++ str_exn e)
      end
  end.

End Handlers.

(** ** Notions the statements use *)

(** A float that is not NaN, and one that is neither NaN nor infinite. *)
Definition number (x : float) : Prop := is_nan x = false.

Definition finite (x : float) : Prop := is_finite x = true.

(** Every reference embedding of the gallery has the length of the query. *)
Definition same_length (q : Embedding) (g : list CandidateEmbeddings) : Prop :=
  forall c e, In c g -> In e (embeddings c) -> List.length e = List.length q.

(** Identity [c] of gallery [g] holds the reference embedding [e], whose
    distance to the query [q] evaluates to [d]. *)
Definition reference_distance (q : Embedding) (g : list CandidateEmbeddings)
  (c : CandidateEmbeddings) (e : Embedding) (d : float) : Prop :=
  In c g /\ In e (embeddings c) /\ distance q e = Ok d.

(** An identity is usable for a query when its representative distance
    evaluates below [float('inf')], the test [match_faces] applies before it
    builds a [MatchResult]. *)
Definition usable (q : Embedding) (c : CandidateEmbeddings) : Prop :=
  exists d, min_distance q c = Ok d /\ (d <? infinity) = true.

(** The representative distance of a candidate whose distances evaluate. *)
Definition representative (q : Embedding) (c : CandidateEmbeddings) : float :=
  match min_distance q c with
  | Ok d => d
  | Raise _ => infinity
  end.

(** The single-query request a detected face of a batch stands for. *)
Definition single_request (request : BatchMatchRequest) (face : DetectedFace)
  : MatchFacesRequest :=
  {| query_embedding := embedding face;
     candidate_embeddings := bm_candidate_embeddings request;
     threshold := confident_threshold request;
     return_all_distances := false |}.

(** The selection both matching loops perform, over any list [xs] whose
    items have a name and a key: the running best is replaced only by an
    item whose key compares [<] to it. *)
Section Select.
Variable A : Type.
Variable name : A -> string.
Variable key : A -> float.

Definition select_step (st : option string * float) (a : A)
  : option string * float :=
  if key a <? snd st then (Some (name a), key a) else st.

Definition select (st : option string * float) (xs : list A)
  : option string * float :=
  fold_left select_step xs st.

End Select.

(** The shape of both matching loops: a step [f] that may raise, then the
    assignments [upd]; [value] is what the step returns where it returns. *)
Section Stepwise.
Variables A B S : Type.
Variable f : A -> result B.
Variable upd : S -> A -> B -> S.
Variable dflt : B.

Definition stepwise (st : S) (x : A) : result S :=
  d <- f x ;; Ok (upd st x d).

Definition value (x : A) : B :=
  match f x with
  | Ok d => d
  | Raise _ => dflt
  end.

End Stepwise.

(** The order [ltb] and [leb] decide on the floats that are numbers, read
    off their specification: sign class, then exponent, then mantissa. *)
Definition sf_key (x : spec_float) : Z * Z * Z :=
  match x with
  | S754_zero _ => (0, 0, 0)
  | S754_nan => (0, 0, 0)
  | S754_infinity false => (2, 0, 0)
  | S754_infinity true => (-2, 0, 0)
  | S754_finite false m e => (1, e, Zpos m)
  | S754_finite true m e => (-1, - e, Zneg m)
  end%Z.

Definition lex_lt (a b : Z * Z * Z) : Prop :=
  let '(a1, a2, a3) := a in
  let '(b1, b2, b3) := b in
  (a1 < b1 \/ (a1 = b1 /\ (a2 < b2 \/ (a2 = b2 /\ a3 < b3))))%Z.

Definition sf_number (x : spec_float) : Prop := x <> S754_nan.

Definition sf_finite (x : spec_float) : Prop :=
  match x with
  | S754_zero _ | S754_finite _ _ _ => True
  | _ => False
  end.

(** A number of sign [s] (zero, finite or infinite). *)
Definition sf_signed (s : bool) (x : spec_float) : Prop :=
  match x with
  | S754_zero s' | S754_infinity s' | S754_finite s' _ _ => s' = s
  | S754_nan => False
  end.

Definition nonneg (x : float) : Prop := sf_signed false (Prim2SF x).

(** A number above zero (finite or infinite). *)
Definition sf_positive (x : spec_float) : Prop :=
  match x with
  | S754_finite false _ _ | S754_infinity false => True
  | _ => False
  end.

Definition above_zero (x : float) : Prop := sf_positive (Prim2SF x).

(** ** Notions of the further properties *)

(** The lengths numpy subtracts without raising: equal, or one of them 1. *)
Definition broadcastable (n m : nat) : bool :=
  Nat.eqb n m || Nat.eqb n 1 || Nat.eqb m 1.

(** A request with one field replaced. *)
Definition with_flag (request : MatchFacesRequest) (flag : bool)
  : MatchFacesRequest :=
  {| query_embedding := query_embedding request;
     candidate_embeddings := candidate_embeddings request;
     threshold := threshold request;
     return_all_distances := flag |}.

Definition with_threshold (request : MatchFacesRequest) (t : float)
  : MatchFacesRequest :=
  {| query_embedding := query_embedding request;
     candidate_embeddings := candidate_embeddings request;
     threshold := t;
     return_all_distances := return_all_distances request |}.

Definition with_gallery (request : MatchFacesRequest)
  (g : list CandidateEmbeddings) : MatchFacesRequest :=
  {| query_embedding := query_embedding request;
     candidate_embeddings := g;
     threshold := threshold request;
     return_all_distances := return_all_distances request |}.

Definition with_confident_threshold (request : BatchMatchRequest) (t : float)
  : BatchMatchRequest :=
  {| detected_faces := detected_faces request;
     bm_candidate_embeddings := bm_candidate_embeddings request;
     confident_threshold := t |}.

Definition with_faces (request : BatchMatchRequest)
  (faces : list DetectedFace) : BatchMatchRequest :=
  {| detected_faces := faces;
     bm_candidate_embeddings := bm_candidate_embeddings request;
     confident_threshold := confident_threshold request |}.

(** A batch result moved [n] positions further in the batch. *)
Definition shift_index (n : nat) (m : BatchMatchResult) : BatchMatchResult :=
  {| face_index := n + face_index m;
     br_student_id := br_student_id m;
     br_distance := br_distance m;
     br_status := br_status m |}.

(** Every component of the query and of the reference embeddings is
    finite. *)
Definition finite_components (q : Embedding) (g : list CandidateEmbeddings)
  : Prop :=
  Forall finite q
  /\ forall c e, In c g -> In e (embeddings c) -> Forall finite e.

(** A float that is NaN or a number of positive sign. *)
Definition nonneg_or_nan (x : float) : Prop :=
  Prim2SF x = S754_nan \/ nonneg x.

(** ** Example requests *)

(** The gallery of the spec's examples. *)
Definition spec_gallery : list CandidateEmbeddings :=
  [ {| student_id := "S1"; embeddings := [[0; 0]] |};
    {| student_id := "S2"; embeddings := [[10; 10]] |} ].

Definition spec_request (q : Embedding) : MatchFacesRequest :=
  {| query_embedding := q;
     candidate_embeddings := spec_gallery;
     threshold := 0.6;
     return_all_distances := false |}.

(** One identity with one embedding of the query's length; the square of
    the difference overflows. *)
Definition overflow_request : MatchFacesRequest :=
  {| query_embedding := [1e200];
     candidate_embeddings :=
       [ {| student_id := "S1"; embeddings := [[-1e200]] |} ];
     threshold := 0.6;
     return_all_distances := false |}.

(** A query of length two against a reference embedding of length one. *)
Definition broadcast_request : MatchFacesRequest :=
  {| query_embedding := [0.1; 0.1];
     candidate_embeddings := [ {| student_id := "S1"; embeddings := [[0.1]] |} ];
     threshold := 0.6;
     return_all_distances := false |}.

(** A query of length two against a reference embedding of length three. *)
Definition mismatch_gallery : list CandidateEmbeddings :=
  [ {| student_id := "S1"; embeddings := [[0; 0; 0]] |} ].

Definition mismatch_request : MatchFacesRequest :=
  {| query_embedding := [0; 0];
     candidate_embeddings := mismatch_gallery;
     threshold := 0.6;
     return_all_distances := true |}.

Definition mismatch_batch : BatchMatchRequest :=
  {| detected_faces := [ {| embedding := [0; 0] |} ];
     bm_candidate_embeddings := mismatch_gallery;
     confident_threshold := 0.6 |}.

(** An identity enrolled without embeddings. *)
Definition unenrolled : CandidateEmbeddings :=
  {| student_id := "S0"; embeddings := [] |}.

Definition unenrolled_request : MatchFacesRequest :=
  {| query_embedding := [0; 0];
     candidate_embeddings := [unenrolled];
     threshold := 0.6;
     return_all_distances := true |}.

Definition spec_batch : BatchMatchRequest :=
  {| detected_faces :=
       [ {| embedding := [0; 0] |}; {| embedding := [5; 5] |};
         {| embedding := [10; 10] |} ];
     bm_candidate_embeddings := spec_gallery;
     confident_threshold := 0.6 |}.

Definition unenrolled_batch : BatchMatchRequest :=
  {| detected_faces := [ {| embedding := [0; 0] |}; {| embedding := [5; 5] |} ];
     bm_candidate_embeddings := [unenrolled];
     confident_threshold := 0.6 |}.

(** Two detected faces in an image of 100 by 100 pixels: one covers a
    quarter of it, the other a hundredth. *)
Definition two_faces : list FaceLocation :=
  [ {| top := 0; right := 50; bottom := 50; left := 0 |};
    {| top := 0; right := 10; bottom := 10; left := 0 |} ].

(** A provider that finds [two_faces] in every payload. *)
Definition two_faces_provider : Provider :=
  {| image := unit;
     b64decode := fun s => Ok s;
     image_open := fun _ => Ok tt;
     image_shape := fun _ => (100, 100)%Z;
     face_locations := fun _ _ _ => Ok two_faces;
     face_encodings := fun _ locations _ _ =>
                         Ok (map (fun loc => [float_of_Z (right loc)]) locations) |}.

Definition two_faces_encode : EncodeFaceRequest :=
  {| ef_image_base64 := "image";
     validate_single := true;
     ef_min_face_area_ratio := 0.04;
     ef_num_jitters := 5 |}.

Definition two_faces_detect : DetectFacesRequest :=
  {| df_image_base64 := "image";
     df_model := "hog";
     df_min_face_area_ratio := 0.04;
     df_num_jitters := 5 |}.

(** A provider that finds no face in any payload. *)
Definition no_face_provider : Provider :=
  {| image := unit;
     b64decode := fun s => Ok s;
     image_open := fun _ => Ok tt;
     image_shape := fun _ => (100, 100)%Z;
     face_locations := fun _ _ _ => Ok [];
     face_encodings := fun _ _ _ _ => Ok [] |}.

(** A provider that reports, in an image of one pixel, a face whose sides
    are [2^600] long. *)
Definition huge_face_provider : Provider :=
  {| image := unit;
     b64decode := fun s => Ok s;
     image_open := fun _ => Ok tt;
     image_shape := fun _ => (1, 1)%Z;
     face_locations :=
       fun _ _ _ =>
         Ok [ {| top := 0; right := 2 ^ 600; bottom := 2 ^ 600; left := 0 |} ];
     face_encodings := fun _ locations _ _ => Ok (map (fun _ => [0]) locations) |}.


(** The request of [two_faces_encode] without single-face validation. *)
Definition first_face_encode : EncodeFaceRequest :=
  {| ef_image_base64 := "image";
     validate_single := false;
     ef_min_face_area_ratio := 0.04;
     ef_num_jitters := 5 |}.

(** * Floats: order and arithmetic facts *)

(** Case analysis for a comparison of two numbers: the signs, then the
    exponents, then the mantissas. *)
Ltac sf_compare_cases mx my ex ey :=
  repeat match goal with s : bool |- _ => destruct s end;
  cbn -[Z.compare Pos.compare_cont];
  try (split; [discriminate | lia]);
  try (split; [lia | reflexivity]);
  fold (Pos.compare mx my);
  destruct (Z.compare_spec ex ey);
  try destruct (Pos.compare_spec mx my);
  cbn; split; try discriminate; try lia; try reflexivity.

Lemma SFltb_key x y :
  sf_number x -> sf_number y ->
  (SFltb x y = true <-> lex_lt (sf_key x) (sf_key y)).
Proof.
  unfold sf_number, SFltb.
  destruct x as [sx|sx| |sx mx ex], y as [sy|sy| |sy my ey]; intros Hx Hy;
    try congruence; sf_compare_cases mx my ex ey.
Qed.

Lemma SFleb_key x y :
  sf_number x -> sf_number y ->
  (SFleb x y = true <-> ~ lex_lt (sf_key y) (sf_key x)).
Proof.
  unfold sf_number, SFleb.
  destruct x as [sx|sx| |sx mx ex], y as [sy|sy| |sy my ey]; intros Hx Hy;
    try congruence; sf_compare_cases mx my ex ey.
Qed.

Lemma SFeqb_refl x : SFeqb x x = match x with S754_nan => false | _ => true end.
Proof.
  unfold SFeqb.
  destruct x as [s|s| |s m e]; try destruct s;
    cbn -[Z.compare Pos.compare_cont]; try reflexivity;
  rewrite Z.compare_refl; fold (Pos.compare m m); rewrite Pos.compare_refl; reflexivity.
Qed.

Lemma number_spec x : number x <-> sf_number (Prim2SF x).
Proof.
  unfold number, sf_number, is_nan. rewrite eqb_spec, SFeqb_refl.
  destruct (Prim2SF x); cbn; split; congruence.
Qed.

Lemma lex_lt_irrefl a : ~ lex_lt a a.
Proof. destruct a as [[a1 a2] a3]. cbn. lia. Qed.

Lemma lex_lt_trans a b c : lex_lt a b -> lex_lt b c -> lex_lt a c.
Proof. destruct a as [[a1 a2] a3], b as [[b1 b2] b3], c as [[c1 c2] c3]. cbn. lia. Qed.

Lemma ltb_number x y : (x <? y) = true -> number x /\ number y.
Proof.
  rewrite ltb_spec, !number_spec. unfold SFltb, sf_number.
  destruct (Prim2SF x), (Prim2SF y); cbn; intros H; split; congruence.
Qed.

Lemma leb_number x y : (x <=? y) = true -> number x /\ number y.
Proof.
  rewrite leb_spec, !number_spec. unfold SFleb, sf_number.
  destruct (Prim2SF x), (Prim2SF y); cbn; intros H; split; congruence.
Qed.

Lemma ltb_key x y : number x -> number y ->
  ((x <? y) = true <-> lex_lt (sf_key (Prim2SF x)) (sf_key (Prim2SF y))).
Proof. rewrite !number_spec, ltb_spec. apply SFltb_key. Qed.

Lemma leb_key x y : number x -> number y ->
  ((x <=? y) = true <-> ~ lex_lt (sf_key (Prim2SF y)) (sf_key (Prim2SF x))).
Proof. rewrite !number_spec, leb_spec. apply SFleb_key. Qed.

Lemma ltb_irrefl x : (x <? x) = false.
Proof.
  destruct (x <? x) eqn:E; [|reflexivity].
  destruct (ltb_number E) as [Hx _].
  apply (ltb_key Hx Hx) in E. now apply lex_lt_irrefl in E.
Qed.

Lemma ltb_trans x y z : (x <? y) = true -> (y <? z) = true -> (x <? z) = true.
Proof.
  intros H1 H2.
  destruct (ltb_number H1) as [Hx Hy], (ltb_number H2) as [_ Hz].
  apply (ltb_key Hx Hy) in H1. apply (ltb_key Hy Hz) in H2.
  apply (ltb_key Hx Hz). eapply lex_lt_trans; eauto.
Qed.

Lemma lex_total a b c : ~ lex_lt b a -> ~ lex_lt c b -> ~ lex_lt c a.
Proof. destruct a as [[a1 a2] a3], b as [[b1 b2] b3], c as [[c1 c2] c3]. cbn. lia. Qed.

Lemma leb_trans x y z : (x <=? y) = true -> (y <=? z) = true -> (x <=? z) = true.
Proof.
  intros H1 H2.
  destruct (leb_number H1) as [Hx Hy], (leb_number H2) as [_ Hz].
  apply (leb_key Hx Hy) in H1. apply (leb_key Hy Hz) in H2.
  apply (leb_key Hx Hz). eapply lex_total; eauto.
Qed.

Lemma ltb_leb x y : (x <? y) = true -> (x <=? y) = true.
Proof.
  intros H. destruct (ltb_number H) as [Hx Hy].
  apply (ltb_key Hx Hy) in H. apply (leb_key Hx Hy).
  destruct (sf_key (Prim2SF x)) as [[a1 a2] a3],
    (sf_key (Prim2SF y)) as [[b1 b2] b3].
  cbn in *. lia.
Qed.

Lemma not_ltb_leb x y : number x -> number y -> (x <? y) = false -> (y <=? x) = true.
Proof.
  intros Hx Hy H. apply (leb_key Hy Hx). intros C. apply (ltb_key Hx Hy) in C. congruence.
Qed.

Lemma leb_refl x : number x -> (x <=? x) = true.
Proof. intros Hx. apply (leb_key Hx Hx). apply lex_lt_irrefl. Qed.

Lemma ltb_leb_trans x y z : (x <? y) = true -> (y <=? z) = true -> (x <? z) = true.
Proof.
  intros H1 H2.
  destruct (ltb_number H1) as [Hx Hy], (leb_number H2) as [_ Hz].
  apply (ltb_key Hx Hy) in H1. apply (leb_key Hy Hz) in H2. apply (ltb_key Hx Hz).
  destruct (sf_key (Prim2SF x)) as [[a1 a2] a3],
    (sf_key (Prim2SF y)) as [[b1 b2] b3],
    (sf_key (Prim2SF z)) as [[c1 c2] c3].
  cbn in *. lia.
Qed.

Lemma leb_ltb_trans x y z : (x <=? y) = true -> (y <? z) = true -> (x <? z) = true.
Proof.
  intros H1 H2.
  destruct (leb_number H1) as [Hx Hy], (ltb_number H2) as [_ Hz].
  apply (leb_key Hx Hy) in H1. apply (ltb_key Hy Hz) in H2. apply (ltb_key Hx Hz).
  destruct (sf_key (Prim2SF x)) as [[a1 a2] a3],
    (sf_key (Prim2SF y)) as [[b1 b2] b3],
    (sf_key (Prim2SF z)) as [[c1 c2] c3].
  cbn in *. lia.
Qed.

Lemma infinity_ltb x : (infinity <? x) = false.
Proof.
  rewrite ltb_spec. change (Prim2SF infinity) with (S754_infinity false).
  unfold SFltb. destruct (Prim2SF x) as [s|s| |s m e]; try destruct s; reflexivity.
Qed.

Lemma shr_1_nonneg mrs : (0 <= shr_m mrs)%Z -> (0 <= shr_m (shr_1 mrs))%Z.
Proof. destruct mrs as [m r s]; destruct m as [|[p|p|]|p]; cbn; lia. Qed.

Lemma iter_shr_1_nonneg p : forall mrs,
  (0 <= shr_m mrs)%Z -> (0 <= shr_m (iter_pos shr_1 p mrs))%Z.
Proof.
  induction p as [p IH|p IH|]; intros mrs H; cbn.
  - apply IH, IH, shr_1_nonneg, H.
  - apply IH, IH, H.
  - apply shr_1_nonneg, H.
Qed.

Lemma shr_fexp_nonneg pr em m e l :
  (0 <= m)%Z -> (0 <= shr_m (fst (shr_fexp pr em m e l)))%Z.
Proof.
  intros H. unfold shr_fexp, shr.
  assert (H0 : (0 <= shr_m (shr_record_of_loc m l))%Z) by (destruct l as [|[]]; exact H).
  destruct (fexp pr em (Zdigits2 m + e) - e)%Z; cbn [fst]; auto using iter_shr_1_nonneg.
Qed.

Lemma round_nearest_even_nonneg m l :
  (0 <= m)%Z -> (0 <= round_nearest_even m l)%Z.
Proof. intros H. destruct l as [|[]]; cbn; try destruct (Z.even m); lia. Qed.

Lemma binary_round_aux_signed pr em s mx ex lx :
  (0 <= mx)%Z -> sf_signed s (binary_round_aux pr em s mx ex lx).
Proof.
  intros H. unfold binary_round_aux.
  pose proof (shr_fexp_nonneg pr em ex lx H) as H1.
  destruct (shr_fexp pr em mx ex lx) as [mrs' e']. cbn [fst] in H1.
  pose proof (shr_fexp_nonneg pr em e' loc_Exact
                (round_nearest_even_nonneg (loc_of_shr_record mrs') H1)) as H2.
  destruct (shr_fexp pr em _ e' loc_Exact) as [mrs'' e'']. cbn [fst] in H2.
  destruct (shr_m mrs'') as [|m|m]; cbn; try reflexivity; try lia.
  destruct (e'' <=? em - pr)%Z; reflexivity.
Qed.

Lemma binary_round_signed pr em s m e : sf_signed s (binary_round pr em s m e).
Proof.
  unfold binary_round. destruct (shl_align _ _ _) as [mz ez].
  apply binary_round_aux_signed. lia.
Qed.

Lemma binary_round_aux_opp pr em s mx ex lx :
  binary_round_aux pr em (negb s) mx ex lx
  = SFopp (binary_round_aux pr em s mx ex lx).
Proof.
  unfold binary_round_aux.
  destruct (shr_fexp pr em mx ex lx) as [mrs' e'].
  destruct (shr_fexp pr em _ e' loc_Exact) as [mrs'' e''].
  destruct (shr_m mrs''); try reflexivity.
  destruct (e'' <=? em - pr)%Z; reflexivity.
Qed.

Lemma SFopp_involutive x : SFopp (SFopp x) = x.
Proof. destruct x as [s|s| |s m e]; cbn; now rewrite ?negb_involutive. Qed.

Lemma binary_normalize_opp pr em z e :
  z <> 0%Z ->
  binary_normalize pr em (- z) e false = SFopp (binary_normalize pr em z e false).
Proof.
  destruct z as [|m|m]; intros Hz; [congruence| |]; cbn; unfold binary_round;
    destruct (shl_align _ _ _) as [mz ez].
  - apply (binary_round_aux_opp pr em false).
  - rewrite (binary_round_aux_opp pr em false), SFopp_involutive. reflexivity.
Qed.

Lemma SFmul_opp_opp pr em x : SFmul pr em (SFopp x) (SFopp x) = SFmul pr em x x.
Proof. destruct x as [s|s| |s m e]; try destruct s; reflexivity. Qed.

Lemma SFmul_square_signed pr em x :
  x <> S754_nan -> sf_signed false (SFmul pr em x x).
Proof.
  destruct x as [s|s| |s m e]; intros H; try congruence; cbn;
    try apply xorb_nilpotent.
  rewrite xorb_nilpotent. apply binary_round_aux_signed. lia.
Qed.

Lemma SFadd_signed pr em x y :
  sf_signed false x -> sf_signed false y -> sf_signed false (SFadd pr em x y).
Proof.
  destruct x as [sx|sx| |sx mx ex], y as [sy|sy| |sy my ey]; cbn;
    intros Hx Hy; subst; try contradiction; try reflexivity.
  apply binary_round_signed.
Qed.

Lemma SFsqrt_signed pr em x :
  sf_signed false x -> sf_signed false (SFsqrt pr em x).
Proof.
  destruct x as [s|s| |s m e]; cbn; intros H; subst; try contradiction;
    try reflexivity.
  unfold SFsqrt_core_binary.
  set (m' := match (e - 2 * _)%Z with Z0 => _ | Zpos _ => _ | Zneg _ => _ end).
  assert (Hm : (0 <= m')%Z).
  { subst m'. destruct (e - 2 * _)%Z; try lia. apply Z.shiftl_nonneg. lia. }
  pose proof (Z.sqrtrem_spec m' Hm) as Hs.
  destruct (Z.sqrtrem m') as [q r].
  apply binary_round_aux_signed. lia.
Qed.

(** Rounding never takes a value above the least subnormal to zero: sums
    and square roots of numbers above zero are above zero. *)
Lemma digits2_pos_bounds p :
  (2 ^ (Zpos (digits2_pos p) - 1) <= Zpos p < 2 ^ Zpos (digits2_pos p))%Z.
Proof.
  induction p as [p IH|p IH|]; cbn [digits2_pos]; [| |cbn; lia].
  - rewrite Pos2Z.inj_succ.
    replace (Z.succ (Zpos (digits2_pos p)) - 1)%Z
      with (Z.succ (Zpos (digits2_pos p) - 1)) by lia.
    rewrite !Z.pow_succ_r by lia. lia.
  - rewrite Pos2Z.inj_succ.
    replace (Z.succ (Zpos (digits2_pos p)) - 1)%Z
      with (Z.succ (Zpos (digits2_pos p) - 1)) by lia.
    rewrite !Z.pow_succ_r by lia. lia.
Qed.

Lemma digits2_pos_le p q :
  (Zpos p <= Zpos q)%Z -> (Zpos (digits2_pos p) <= Zpos (digits2_pos q))%Z.
Proof.
  intros H.
  destruct (Z.le_gt_cases (Zpos (digits2_pos p)) (Zpos (digits2_pos q)))
    as [L|G]; [exact L|exfalso].
  pose proof (digits2_pos_bounds p) as [Hp _].
  pose proof (digits2_pos_bounds q) as [_ Hq].
  assert (2 ^ Zpos (digits2_pos q) <= 2 ^ (Zpos (digits2_pos p) - 1))%Z
    by (apply Z.pow_le_mono_r; lia).
  lia.
Qed.

Lemma shr_1_lower mrs k :
  (0 <= k)%Z -> (2 ^ (k + 1) <= shr_m mrs)%Z -> (2 ^ k <= shr_m (shr_1 mrs))%Z.
Proof.
  intros Hk. rewrite Z.add_1_r, Z.pow_succ_r by exact Hk.
  pose proof (Z.pow_pos_nonneg 2 k ltac:(lia) Hk).
  destruct mrs as [m r s]; destruct m as [|[p|p|]|p]; cbn [shr_1 shr_m]; lia.
Qed.

Lemma iter_shr_1_lower p : forall mrs k,
  (0 <= k)%Z -> (2 ^ (k + Zpos p) <= shr_m mrs)%Z ->
  (2 ^ k <= shr_m (iter_pos shr_1 p mrs))%Z.
Proof.
  induction p as [p IH|p IH|]; intros mrs k Hk H; cbn [iter_pos].
  - apply IH; [exact Hk|]. apply IH; [lia|]. apply shr_1_lower; [lia|].
    replace (k + Zpos p + Zpos p + 1)%Z with (k + Zpos p~1)%Z by lia. exact H.
  - apply IH; [exact Hk|]. apply IH; [lia|].
    replace (k + Zpos p + Zpos p)%Z with (k + Zpos p~0)%Z by lia. exact H.
  - now apply shr_1_lower.
Qed.

Lemma shr_record_of_loc_m m l : shr_m (shr_record_of_loc m l) = m.
Proof. destruct l as [|[]]; reflexivity. Qed.

(** Shifting a positive mantissa whose value is above the least exponent
    leaves a positive mantissa. *)
Lemma shr_fexp_positive m e l :
  (emin < Zpos (digits2_pos m) + e)%Z ->
  let '(mrs, e') := shr_fexp prec emax (Zpos m) e l in
  (shr_m mrs = Zpos m /\ e' = e)
  \/ (1 <= shr_m mrs /\ emin <= e')%Z.
Proof.
  intros H. unfold shr_fexp, shr. cbn [Zdigits2].
  destruct (fexp prec emax (Zpos (digits2_pos m) + e) - e)%Z as [|n|n] eqn:E.
  - left. split; [apply shr_record_of_loc_m | reflexivity].
  - right. unfold fexp in *. split; [|lia].
    apply (iter_shr_1_lower n (shr_record_of_loc (Zpos m) l) (k := 0)); [lia|].
    rewrite shr_record_of_loc_m. cbn [Z.add].
    pose proof (digits2_pos_bounds m) as [Hm _].
    assert (2 ^ Zpos n <= 2 ^ (Zpos (digits2_pos m) - 1))%Z.
    { apply Z.pow_le_mono_r; [lia|]. unfold SpecFloat.emin, prec, emax in *. lia. }
    lia.
  - left. split; [apply shr_record_of_loc_m | reflexivity].
Qed.

Lemma round_nearest_even_ge m l : (m <= round_nearest_even m l)%Z.
Proof. destruct l as [|[]]; cbn; try destruct (Z.even m); lia. Qed.

Lemma binary_round_aux_positive m e l :
  (emin < Zpos (digits2_pos m) + e)%Z ->
  sf_positive (binary_round_aux prec emax false (Zpos m) e l).
Proof.
  intros H. unfold binary_round_aux.
  pose proof (shr_fexp_positive m e l H) as H1.
  destruct (shr_fexp prec emax (Zpos m) e l) as [mrs' e'].
  pose proof (round_nearest_even_ge (shr_m mrs') (loc_of_shr_record mrs')) as Hr.
  destruct (round_nearest_even (shr_m mrs') (loc_of_shr_record mrs'))
    as [|m2|m2] eqn:E2; [destruct H1; lia| |destruct H1; lia].
  assert (H2 : (emin < Zpos (digits2_pos m2) + e')%Z).
  { destruct H1 as [[Hm ->]|[Hm He]].
    - rewrite Hm in Hr. pose proof (digits2_pos_le Hr). lia.
    - pose proof (Pos2Z.is_pos (digits2_pos m2)). lia. }
  pose proof (shr_fexp_positive m2 e' loc_Exact H2) as H3.
  destruct (shr_fexp prec emax (Zpos m2) e' loc_Exact) as [mrs'' e''].
  destruct (shr_m mrs'') as [|m3|m3]; [destruct H3 as [[? ?]|[? ?]]; lia | |destruct H3 as [[? ?]|[? ?]]; lia].
  destruct (e'' <=? emax - prec)%Z; exact I.
Qed.

Lemma binary_round_positive m e :
  (emin <= e)%Z -> sf_positive (binary_round prec emax false m e).
Proof.
  intros H. unfold binary_round, shl_align.
  destruct (fexp prec emax (Zpos (digits2_pos m) + e) - e)%Z as [|n|n] eqn:E;
    apply binary_round_aux_positive.
  - pose proof (Pos2Z.is_pos (digits2_pos m)). lia.
  - pose proof (Pos2Z.is_pos (digits2_pos m)). lia.
  - pose proof (Pos2Z.is_pos (digits2_pos (Pos.iter xO m n))).
    unfold fexp. lia.
Qed.

Lemma valid_binary_emin s m e :
  valid_binary (S754_finite s m e) = true -> (emin <= e)%Z.
Proof.
  unfold SpecFloat.valid_binary, bounded, canonical_mantissa, fexp.
  intros H. apply andb_prop in H. destruct H as [H _].
  apply Z.eqb_eq in H. lia.
Qed.

Lemma SFadd_positive x y :
  valid_binary x = true -> valid_binary y = true ->
  sf_signed false x -> sf_signed false y ->
  sf_positive x \/ sf_positive y ->
  sf_positive (SFadd prec emax x y).
Proof.
  destruct x as [sx|sx| |sx mx ex], y as [sy|sy| |sy my ey]; cbn [sf_signed];
    intros Vx Vy Hx Hy Hp; subst; try contradiction;
    try (destruct Hp as [Hp|Hp]; cbn in Hp; try contradiction; exact I).
  cbn [SFadd cond_Zopp Z.add binary_normalize].
  apply binary_round_positive.
  apply valid_binary_emin in Vx, Vy. lia.
Qed.

Lemma SFsqrt_positive x :
  valid_binary x = true ->
  sf_positive x -> sf_positive (SFsqrt prec emax x).
Proof.
  destruct x as [s|s| |s m e]; try destruct s; cbn [sf_positive];
    intros V H; try contradiction; [exact I|].
  cbn [SFsqrt]. unfold SFsqrt_core_binary.
  apply valid_binary_emin in V.
  set (e' := Z.min _ _).
  assert (He' : (emin <= e' /\ 2 * e' <= e)%Z).
  { subst e'. unfold fexp. rewrite !Z.div2_div.
    pose proof (Z.div_mod e 2 ltac:(lia)).
    pose proof (Z.mod_pos_bound e 2 ltac:(lia)).
    unfold SpecFloat.emin, prec, emax in *. lia. }
  set (m' := match (e - 2 * e')%Z with Z0 => _ | Zpos _ => _ | Zneg _ => _ end).
  assert (Hm : (1 <= m')%Z).
  { subst m'. destruct (e - 2 * e')%Z as [|p|p] eqn:E; try lia.
    rewrite Z.shiftl_mul_pow2 by lia.
    pose proof (Z.pow_pos_nonneg 2 (Zpos p) ltac:(lia) ltac:(lia)). nia. }
  pose proof (Z.sqrtrem_spec m' ltac:(lia)) as Hs.
  destruct (Z.sqrtrem m') as [q r].
  destruct q as [|q|q]; [lia| |lia].
  apply binary_round_aux_positive.
  pose proof (Pos2Z.is_pos (digits2_pos q)). lia.
Qed.

Lemma digits2_pos_square m :
  (2 * Zpos (digits2_pos m) - 1 <= Zpos (digits2_pos (m * m)))%Z.
Proof.
  pose proof (digits2_pos_bounds m) as [Hm _].
  pose proof (digits2_pos_bounds (m * m)) as [_ Hmm].
  set (d := Zpos (digits2_pos m)) in *.
  set (D := Zpos (digits2_pos (m * m))) in *.
  assert (Hd : (1 <= d)%Z) by (subst d; lia).
  assert (Hsq : (2 ^ (d - 1) * 2 ^ (d - 1) <= Zpos (m * m))%Z).
  { rewrite Pos2Z.inj_mul. apply Z.mul_le_mono_nonneg; try lia;
      apply Z.pow_nonneg; lia. }
  rewrite <- Z.pow_add_r in Hsq by lia.
  assert (Hlt : (2 ^ (d - 1 + (d - 1)) < 2 ^ D)%Z) by lia.
  apply Z.pow_lt_mono_r_iff in Hlt; subst D; lia.
Qed.

(** The square of a number of magnitude [2^-537] or more is above zero. *)
Lemma SFmul_square_positive x :
  valid_binary x = true ->
  SFleb (S754_finite false 4503599627370496 (-589)) (SFabs x) = true ->
  sf_positive (SFmul prec emax x x).
Proof.
  destruct x as [s|s| |s m e]; intros V H; try discriminate H.
  - cbn. now rewrite xorb_nilpotent.
  - assert (He : (-589 <= e)%Z).
    { unfold SFleb, SFabs, SFcompare in H.
      destruct (Z.compare_spec (-589) e); try lia; discriminate H. }
    cbn [SFmul]. rewrite xorb_nilpotent.
    apply binary_round_aux_positive.
    pose proof (digits2_pos_square m).
    unfold SpecFloat.valid_binary, bounded, canonical_mantissa, fexp in V.
    apply andb_prop in V. destruct V as [V _]. apply Z.eqb_eq in V.
    unfold SpecFloat.emin, prec, emax in *. lia.
Qed.

Lemma SFsub_number pr em x y :
  sf_finite x -> sf_finite y -> SFsub pr em x y <> S754_nan.
Proof.
  destruct x as [sx|sx| |sx mx ex], y as [sy|sy| |sy my ey]; cbn;
    intros Hx Hy; try contradiction; try discriminate.
  - destruct sx, sy; discriminate.
  - set (z := (_ - _)%Z). destruct z as [|m|m]; cbn; try discriminate.
    + pose proof (binary_round_signed pr em false m (Z.min ex ey)) as H.
      intros E. rewrite E in H. exact H.
    + pose proof (binary_round_signed pr em true m (Z.min ex ey)) as H.
      intros E. rewrite E in H. exact H.
Qed.

Lemma SFsub_diag pr em x : sf_finite x -> SFsub pr em x x = S754_zero false.
Proof.
  destruct x as [s|s| |s m e]; cbn; intros H; try contradiction.
  - destruct s; reflexivity.
  - rewrite Z.sub_diag. reflexivity.
Qed.

Lemma SFsub_square_comm pr em x y :
  SFmul pr em (SFsub pr em x y) (SFsub pr em x y)
  = SFmul pr em (SFsub pr em y x) (SFsub pr em y x).
Proof.
  destruct x as [sx|sx| |sx mx ex], y as [sy|sy| |sy my ey];
    try (repeat match goal with s : bool |- _ => destruct s end; reflexivity).
  cbn. rewrite (Z.min_comm ey ex).
  set (a := cond_Zopp sx _). set (b := cond_Zopp sy _).
  destruct (Z.eq_dec (a - b) 0) as [E|E].
  - replace (b - a)%Z with 0%Z by lia. rewrite E. reflexivity.
  - replace (b - a)%Z with (- (a - b))%Z by lia.
    rewrite binary_normalize_opp by exact E. symmetry. apply SFmul_opp_opp.
Qed.

Lemma finite_spec x : finite x <-> sf_finite (Prim2SF x).
Proof.
  unfold finite, is_finite, is_nan, is_infinity.
  rewrite !eqb_spec, abs_spec, SFeqb_refl.
  change (Prim2SF infinity) with (S754_infinity false).
  destruct (Prim2SF x) as [s|s| |s m e]; cbn; intuition congruence.
Qed.

Lemma sub_square_comm x y : (x - y) * (x - y) = (y - x) * (y - x).
Proof.
  apply Prim2SF_inj. rewrite !mul_spec, !sub_spec. apply SFsub_square_comm.
Qed.

Lemma sub_diag x : finite x -> x - x = 0.
Proof.
  intros H. apply finite_spec in H. apply Prim2SF_inj.
  rewrite sub_spec. unfold SF64sub. rewrite SFsub_diag by exact H. reflexivity.
Qed.

Lemma sub_number x y : finite x -> finite y -> number (x - y).
Proof.
  rewrite !finite_spec, number_spec, sub_spec. apply SFsub_number.
Qed.

Lemma nonneg_leb x : nonneg x -> (0 <=? x) = true.
Proof.
  unfold nonneg. rewrite leb_spec. change (Prim2SF 0) with (S754_zero false).
  destruct (Prim2SF x) as [s|s| |s m e]; cbn; intros H; subst;
    try reflexivity; contradiction.
Qed.

Lemma nonneg_zero : nonneg 0.
Proof. reflexivity. Qed.

Lemma nonneg_add_square acc v : nonneg acc -> number v -> nonneg (acc + v * v).
Proof.
  unfold nonneg. rewrite number_spec, add_spec, mul_spec. intros Ha Hv.
  apply SFadd_signed; [exact Ha|]. apply SFmul_square_signed, Hv.
Qed.

Lemma nonneg_sqrt x : nonneg x -> nonneg (sqrt x).
Proof. unfold nonneg. rewrite sqrt_spec. apply SFsqrt_signed. Qed.

Lemma nonneg_square v : number v -> nonneg (v * v).
Proof.
  unfold nonneg. rewrite number_spec, mul_spec. apply SFmul_square_signed.
Qed.

Lemma nonneg_cases x : nonneg x -> x = 0 \/ above_zero x.
Proof.
  unfold nonneg, above_zero. intros H.
  destruct (Prim2SF x) as [s|s| |s m e] eqn:E; cbn in H; subst;
    try contradiction; try (right; exact I).
  left. apply Prim2SF_inj. now rewrite E.
Qed.

Lemma above_zero_nonzero x : above_zero x -> x <> 0.
Proof. intros H ->. exact H. Qed.

Lemma add_above_zero x y :
  nonneg x -> nonneg y -> above_zero x \/ above_zero y -> above_zero (x + y).
Proof.
  unfold nonneg, above_zero. rewrite add_spec.
  apply SFadd_positive; apply Prim2SF_valid.
Qed.

Lemma sqrt_above_zero x : above_zero x -> above_zero (sqrt x).
Proof.
  unfold above_zero. rewrite sqrt_spec. apply SFsqrt_positive, Prim2SF_valid.
Qed.

Lemma square_above_zero v :
  (0x1p-537 <=? abs v) = true -> above_zero (v * v).
Proof.
  unfold above_zero. rewrite leb_spec, abs_spec, mul_spec.
  apply SFmul_square_positive, Prim2SF_valid.
Qed.

(** A sum of two numbers that are zero or above is zero only when both
    are; so is a square root. *)
Lemma add_zero_iff x y :
  nonneg x -> nonneg y -> (x + y = 0 <-> x = 0 /\ y = 0).
Proof.
  intros Hx Hy. split.
  - intros H.
    destruct (@nonneg_cases _ Hx) as [->|Px], (@nonneg_cases _ Hy) as [->|Py];
      auto; exfalso;
      apply (@above_zero_nonzero (_ + _)) in H; auto;
      apply add_above_zero; auto.
  - intros [-> ->]. reflexivity.
Qed.

Lemma sqrt_zero_iff x : nonneg x -> (sqrt x = 0 <-> x = 0).
Proof.
  intros Hx. split.
  - intros H. destruct (@nonneg_cases _ Hx) as [->|Px]; [reflexivity|].
    exfalso. apply (@above_zero_nonzero (sqrt x)); auto using sqrt_above_zero.
  - intros ->. reflexivity.
Qed.

(** * Loops and comprehensions *)

Section Loops.
Variables A B S : Type.
Variable f : A -> result B.
Variable upd : S -> A -> B -> S.
Variable dflt : B.

Local Abbreviation stepwise := (stepwise f upd).
Local Abbreviation value := (value f dflt).

Lemma comprehension_total xs :
  (forall x, In x xs -> exists y, f x = Ok y) ->
  exists ys, comprehension f xs = Ok ys /\ Forall2 (fun x y => f x = Ok y) xs ys.
Proof.
  induction xs as [|x xs IH]; intros H; cbn.
  - exists []. split; [reflexivity | constructor].
  - destruct (H x (or_introl eq_refl)) as [y Hy].
    destruct IH as [ys [Hys HF]]; [intros; apply H; now right|].
    exists (y :: ys). rewrite Hy, Hys. split; [reflexivity | now constructor].
Qed.

Lemma comprehension_raise xs x e :
  In x xs -> f x = Raise e -> exists e', comprehension f xs = Raise e'.
Proof.
  induction xs as [|x0 xs IH]; intros Hin Hx; [contradiction|]. cbn.
  destruct (f x0) as [y|e0] eqn:E0; cbn; [|now exists e0].
  destruct Hin as [->|Hin]; [congruence|].
  destruct (IH Hin Hx) as [e' ->]. now exists e'.
Qed.

Lemma comprehension_raise_inv xs e :
  comprehension f xs = Raise e -> exists x, In x xs /\ f x = Raise e.
Proof.
  induction xs as [|x0 xs IH]; cbn; [discriminate|].
  destruct (f x0) as [y|e0] eqn:E0; cbn.
  - destruct (comprehension f xs) as [ys|e1]; cbn; [discriminate|].
    intros [= <-]. destruct (IH eq_refl) as [x [Hin Hx]]. exists x. auto.
  - intros [= <-]. exists x0. auto.
Qed.

Lemma for_each_ok xs : forall st,
  (forall x, In x xs -> exists d, f x = Ok d) ->
  for_each stepwise st xs = Ok (fold_left (fun st x => upd st x (value x)) xs st).
Proof.
  induction xs as [|x xs IH]; intros st H; cbn; [reflexivity|].
  destruct (H x (or_introl eq_refl)) as [d Hd].
  unfold stepwise at 1, value at 2. rewrite Hd. cbn.
  apply IH. intros; apply H; now right.
Qed.

Lemma for_each_raise_iff xs e : forall st,
  for_each stepwise st xs = Raise e <-> comprehension f xs = Raise e.
Proof.
  induction xs as [|x xs IH]; intros st; cbn; [split; discriminate|].
  unfold stepwise at 1. destruct (f x) as [d|e0]; cbn.
  - rewrite IH. destruct (comprehension f xs); cbn; split; congruence.
  - split; intros [= ->]; reflexivity.
Qed.

End Loops.

(** * numpy: subtraction, norm and the distance *)

Lemma np_sub_same_length (a b : Embedding) :
  List.length a = List.length b -> np_sub a b = Ok (zip_sub a b).
Proof. intros H. unfold np_sub. now rewrite H, Nat.eqb_refl. Qed.

Lemma np_sub_mismatch (a b : Embedding) :
  List.length a <> List.length b ->
  List.length a <> 1%nat -> List.length b <> 1%nat ->
  np_sub a b = Raise (BroadcastError (List.length a) (List.length b)).
Proof.
  intros Hab Ha Hb. unfold np_sub.
  destruct (Nat.eqb_spec (List.length a) (List.length b)) as [E|_]; [contradiction|].
  destruct a as [|x [|x' a]], b as [|y [|y' b]]; cbn in *; congruence.
Qed.

Lemma distance_same_length (q e : Embedding) :
  List.length e = List.length q ->
  distance q e = Ok (np_linalg_norm (zip_sub q e)).
Proof.
  intros H. unfold distance. now rewrite np_sub_same_length by auto.
Qed.

Lemma distance_mismatch (q e : Embedding) :
  List.length e <> List.length q ->
  List.length q <> 1%nat -> List.length e <> 1%nat ->
  distance q e = Raise (BroadcastError (List.length q) (List.length e)).
Proof.
  intros Hne Hq He. unfold distance.
  now rewrite np_sub_mismatch by auto.
Qed.

Lemma dot_zip_sub_comm (a : Embedding) : forall (b : Embedding) acc,
  fold_left (fun acc v => acc + v * v) (zip_sub a b) acc
  = fold_left (fun acc v => acc + v * v) (zip_sub b a) acc.
Proof.
  induction a as [|x a IH]; intros [|y b] acc; cbn; try reflexivity.
  rewrite (sub_square_comm x y). apply IH.
Qed.

Lemma dot_zip_sub_diag (a : Embedding) :
  Forall finite a ->
  fold_left (fun acc v => acc + v * v) (zip_sub a a) 0 = 0.
Proof.
  induction 1 as [|x a Hx _ IH]; cbn; [reflexivity|].
  rewrite (sub_diag Hx). exact IH.
Qed.

Lemma dot_zip_sub_nonneg (a : Embedding) : forall (b : Embedding) acc,
  Forall finite a -> Forall finite b -> nonneg acc ->
  nonneg (fold_left (fun acc v => acc + v * v) (zip_sub a b) acc).
Proof.
  induction a as [|x a IH]; intros [|y b] acc Ha Hb Hacc; cbn; try exact Hacc.
  inversion_clear Ha. inversion_clear Hb.
  apply IH; auto. apply nonneg_add_square; auto using sub_number.
Qed.

Lemma nonneg_number x : nonneg x -> number x.
Proof.
  unfold nonneg. rewrite number_spec. unfold sf_number.
  destruct (Prim2SF x); cbn; intuition congruence.
Qed.

(** On finite components of equal length the distance is a number, zero or
    above (possibly infinite, by overflow), never NaN. *)
Lemma distance_finite_nonneg (a b : Embedding) d :
  List.length a = List.length b ->
  Forall finite a -> Forall finite b ->
  distance a b = Ok d -> nonneg d.
Proof.
  intros Hlen Ha Hb. rewrite distance_same_length by auto. intros [= <-].
  apply nonneg_sqrt, dot_zip_sub_nonneg; auto using nonneg_zero.
Qed.

(** The sum of the squared differences is zero exactly when every squared
    difference is. *)
Lemma dot_zip_sub_zero_iff (a : Embedding) : forall (b : Embedding) acc,
  List.length a = List.length b ->
  Forall finite a -> Forall finite b -> nonneg acc ->
  (fold_left (fun acc v => acc + v * v) (zip_sub a b) acc = 0
   <-> acc = 0 /\ Forall2 (fun x y => (x - y) * (x - y) = 0) a b).
Proof.
  induction a as [|x a IH]; intros [|y b] acc Hlen Ha Hb Hacc; cbn;
    try discriminate.
  - split; [intros H; split; [exact H | constructor] | intros [H _]; exact H].
  - inversion_clear Ha. inversion_clear Hb.
    assert (Hsq : nonneg ((x - y) * (x - y)))
      by (apply nonneg_square; auto using sub_number).
    rewrite IH by (auto using nonneg_add_square, sub_number).
    rewrite (@add_zero_iff _ _ Hacc Hsq). split.
    + intros [[E1 E2] E3]. split; [exact E1 | now constructor].
    + intros [E1 E2]. inversion_clear E2. auto.
Qed.

Lemma float_eq_dec (x y : float) : x = y \/ x <> y.
Proof.
  assert (D : forall s t : spec_float, {s = t} + {s <> t})
    by (decide equality;
        first [apply Bool.bool_dec | apply Pos.eq_dec | apply Z.eq_dec]).
  destruct (D (Prim2SF x) (Prim2SF y)) as [E|E].
  - left. now apply Prim2SF_inj.
  - right. intros ->. now apply E.
Qed.

(** * Python's [min] *)

Lemma py_min_In ds : forall d, In (py_min d ds) (d :: ds).
Proof.
  induction ds as [|x ds IH]; intros d; cbn; [now left|].
  fold (py_min (if x <? d then x else d) ds).
  destruct (IH (if x <? d then x else d)) as [H|H]; [|now right; right].
  rewrite <- H. destruct (x <? d); [right; now left | now left].
Qed.

Lemma py_min_leb ds : forall d,
  number d -> Forall number ds ->
  (py_min d ds <=? d) = true /\ Forall (fun x => (py_min d ds <=? x) = true) ds.
Proof.
  induction ds as [|x ds IH]; intros d Hd Hds; cbn.
  - split; [now apply leb_refl | constructor].
  - inversion_clear Hds as [|? ? Hx Hds'].
    fold (py_min (if x <? d then x else d) ds).
    destruct (x <? d) eqn:E.
    + destruct (IH x Hx Hds') as [H1 H2]. split; [|now constructor].
      eapply leb_trans; [exact H1 | now apply ltb_leb].
    + destruct (IH d Hd Hds') as [H1 H2]. split; [exact H1|]. constructor; [|exact H2].
      eapply leb_trans; [exact H1 | now apply not_ltb_leb].
Qed.

Lemma min_or_inf_In ds : ds <> [] -> In (min_or_inf ds) ds.
Proof. destruct ds as [|d ds]; [congruence|]. intros _. apply py_min_In. Qed.

Lemma min_or_inf_leb ds :
  Forall number ds -> Forall (fun x => (min_or_inf ds <=? x) = true) ds.
Proof.
  destruct ds as [|d ds]; intros H; [constructor|].
  inversion_clear H as [|? ? Hd Hds].
  destruct (py_min_leb Hd Hds) as [H1 H2]. now constructor.
Qed.

(** * The selection of the best candidate *)

Section SelectFacts.
Variable A : Type.
Variable name : A -> string.
Variable key : A -> float.

Local Abbreviation sel := (select name key).
Local Abbreviation sel_step := (select_step name key).

(** Either the initial best survives and no key is below it, or the result
    is the first item [c] whose key is below the initial best and below
    every number before it, and no later key is below it. *)
Lemma select_spec xs : forall bm0 bd0,
  number bd0 ->
  (sel (bm0, bd0) xs = (bm0, bd0)
   /\ Forall (fun a => (key a <? bd0) = false) xs)
  \/ (exists xs1 c xs2,
        xs = xs1 ++ c :: xs2
        /\ sel (bm0, bd0) xs = (Some (name c), key c)
        /\ (key c <? bd0) = true
        /\ Forall (fun a => number (key a) -> (key c <? key a) = true) xs1
        /\ Forall (fun a => (key a <? key c) = false) xs2).
Proof.
  induction xs as [|a xs IH]; intros bm0 bd0 Hbd0.
  - left. split; [reflexivity | constructor].
  - cbn. unfold select_step. cbn [snd].
    destruct (key a <? bd0) eqn:E.
    + destruct (ltb_number E) as [Ha _].
      destruct (IH (Some (name a)) (key a) Ha)
        as [[Hr HF] | (xs1 & c & xs2 & -> & Hr & Hc & H1 & H2)].
      * right. exists [], a, xs. repeat split; auto.
      * right. exists (a :: xs1), c, xs2. repeat split; auto.
        eapply ltb_trans; eauto.
    + destruct (IH bm0 bd0 Hbd0)
        as [[Hr HF] | (xs1 & c & xs2 & -> & Hr & Hc & H1 & H2)].
      * left. split; auto.
      * right. exists (a :: xs1), c, xs2. repeat split; auto.
        constructor; auto. intros Ha.
        eapply ltb_leb_trans; [exact Hc|]. now apply not_ltb_leb.
Qed.

Lemma select_none xs :
  Forall (fun a => (key a <? infinity) = false) xs ->
  sel (None, infinity) xs = (None, infinity).
Proof.
  induction 1 as [|a xs Ha _ IH]; cbn; [reflexivity|].
  unfold select_step. cbn [snd]. now rewrite Ha.
Qed.

(** From the initial state of the loops: with an item below infinity the
    result is the first item of least key; its key is a number below
    infinity. *)
Lemma select_first xs :
  Exists (fun a => (key a <? infinity) = true) xs ->
  exists xs1 c xs2,
    xs = xs1 ++ c :: xs2
    /\ sel (None, infinity) xs = (Some (name c), key c)
    /\ (key c <? infinity) = true
    /\ Forall (fun a => number (key a) -> (key c <? key a) = true) xs1
    /\ Forall (fun a => number (key a) -> (key c <=? key a) = true) xs2.
Proof.
  intros Hex.
  destruct (select_spec xs None (bd0 := infinity) eq_refl)
    as [[_ HF] | (xs1 & c & xs2 & -> & Hr & Hc & H1 & H2)].
  - exfalso. apply Exists_exists in Hex. destruct Hex as [a [Hin Ha]].
    rewrite Forall_forall in HF. specialize (HF a Hin). congruence.
  - exists xs1, c, xs2. repeat split; auto.
    destruct (ltb_number Hc) as [Hkc _].
    eapply Forall_impl; [|exact H2]. cbn. intros a Ha Hn.
    now apply not_ltb_leb.
Qed.

(** Whatever the keys, a selected name comes from an item whose key is
    below infinity. *)
Lemma select_Some xs id d :
  sel (None, infinity) xs = (Some id, d) ->
  exists c, In c xs /\ name c = id /\ key c = d /\ (d <? infinity) = true.
Proof.
  intros Hs.
  destruct (select_spec xs None (bd0 := infinity) eq_refl)
    as [[Hr _] | (xs1 & c & xs2 & -> & Hr & Hc & _ & _)].
  - congruence.
  - rewrite Hr in Hs. injection Hs as <- <-.
    exists c. repeat split; auto. apply in_elt.
Qed.

End SelectFacts.

(** * One candidate: [min_distance] *)

Lemma Forall2_Ok_In_l (A B : Type) (f : A -> result B) xs ys x y :
  Forall2 (fun x y => f x = Ok y) xs ys -> In x xs -> f x = Ok y -> In y ys.
Proof.
  induction 1 as [|x0 y0 xs ys H0 _ IH]; intros Hin Hx; [contradiction|].
  destruct Hin as [->|Hin]; [left; congruence | right; auto].
Qed.

Lemma Forall2_Ok_In_r (A B : Type) (f : A -> result B) xs ys y :
  Forall2 (fun x y => f x = Ok y) xs ys -> In y ys ->
  exists x, In x xs /\ f x = Ok y.
Proof.
  induction 1 as [|x0 y0 xs ys H0 _ IH]; intros Hin; [contradiction|].
  destruct Hin as [->|Hin].
  - exists x0. split; [now left | exact H0].
  - destruct (IH Hin) as [x [Hx Hf]]. exists x. split; [now right | exact Hf].
Qed.

Lemma min_distance_nil q c : embeddings c = [] -> min_distance q c = Ok infinity.
Proof. intros H. unfold min_distance. now rewrite H. Qed.

Lemma min_distance_raise q c e err :
  In e (embeddings c) -> distance q e = Raise err ->
  exists err', min_distance q c = Raise err'.
Proof.
  intros Hin He. unfold min_distance.
  destruct (comprehension_raise (distance q) _ _ Hin He) as [err' ->].
  now exists err'.
Qed.

Lemma min_distance_raise_inv q c err :
  min_distance q c = Raise err ->
  exists e, In e (embeddings c) /\ distance q e = Raise err.
Proof.
  unfold min_distance.
  destruct (comprehension (distance q) (embeddings c)) as [ds|err0] eqn:E; cbn;
    [discriminate|].
  intros [= <-]. now apply comprehension_raise_inv.
Qed.

Lemma min_distance_total q c :
  (forall e, In e (embeddings c) -> List.length e = List.length q) ->
  exists ds, min_distance q c = Ok (min_or_inf ds)
             /\ Forall2 (fun e d => distance q e = Ok d) (embeddings c) ds.
Proof.
  intros H. unfold min_distance.
  destruct (comprehension_total (distance q) (embeddings c)) as [ds [E HF]].
  - intros e He. eexists. apply distance_same_length. auto.
  - exists ds. now rewrite E.
Qed.

(** The representative distance of a candidate whose distances are numbers:
    a number, at most every distance, and one of the distances unless the
    candidate has no embedding. *)
Lemma representative_spec q c :
  (forall e, In e (embeddings c) -> List.length e = List.length q) ->
  (forall e d, In e (embeddings c) -> distance q e = Ok d -> number d) ->
  min_distance q c = Ok (representative q c)
  /\ number (representative q c)
  /\ (forall e d, In e (embeddings c) -> distance q e = Ok d ->
        (representative q c <=? d) = true)
  /\ (embeddings c <> [] ->
        exists e, In e (embeddings c) /\ distance q e = Ok (representative q c)).
Proof.
  intros Hlen Hnum.
  destruct (min_distance_total q c Hlen) as [ds [E HF]].
  unfold representative. rewrite E.
  assert (Hds : Forall number ds).
  { apply Forall_forall. intros d Hd.
    destruct (@Forall2_Ok_In_r _ _ (distance q) _ _ _ HF Hd) as [e [He Hde]]. eauto. }
  split; [reflexivity|]. split; [|split].
  - destruct ds as [|d ds]; [reflexivity|].
    pose proof (py_min_In ds d) as Hin.
    rewrite Forall_forall in Hds. now apply Hds.
  - intros e d He Hd.
    pose proof (min_or_inf_leb Hds) as Hle. rewrite Forall_forall in Hle.
    apply Hle. eapply (@Forall2_Ok_In_l _ _ (distance q)); eauto.
  - intros Hne. assert (Hds' : ds <> []).
    { intros ->. inversion HF as [E1|]. congruence. }
    apply (@Forall2_Ok_In_r _ _ (distance q) _ _ _ HF). now apply min_or_inf_In.
Qed.

(** * The loops of [match_faces] and [batch_match] *)

Section MatchLoop.
Variable request : MatchFacesRequest.

Local Abbreviation q := (query_embedding request).

Lemma match_fold_best (rep : CandidateEmbeddings -> float) g : forall st,
  let st' := fold_left (fun st c => match_update request st c (rep c)) g st in
  (best_match st', best_distance st')
  = select student_id rep (best_match st, best_distance st) g.
Proof.
  induction g as [|c g IH]; intros st; cbn; [reflexivity|].
  cbn in IH. rewrite IH. f_equal.
  unfold match_update, select_step. cbn [snd].
  destruct (rep c <? best_distance st); reflexivity.
Qed.

Lemma match_fold_all (rep : CandidateEmbeddings -> float) g : forall st,
  all_distances (fold_left (fun st c => match_update request st c (rep c)) g st)
  = all_distances st ++
      (if return_all_distances request
       then map (fun c => {| di_student_id := student_id c;
                             di_min_distance := rep c |}) g
       else []).
Proof.
  induction g as [|c g IH]; intros st; cbn.
  - destruct (return_all_distances request); now rewrite app_nil_r.
  - rewrite IH. unfold match_update.
    destruct (return_all_distances request), (rep c <? best_distance st); cbn;
      now rewrite <- ?app_assoc.
Qed.

Lemma match_loop_ok :
  (forall c, In c (candidate_embeddings request) ->
             exists d, min_distance q c = Ok d) ->
  exists st,
    match_loop request = Ok st
    /\ (best_match st, best_distance st)
       = select student_id (representative q) (None, infinity)
           (candidate_embeddings request)
    /\ all_distances st
       = if return_all_distances request
         then map (fun c => {| di_student_id := student_id c;
                               di_min_distance := representative q c |})
                (candidate_embeddings request)
         else [].
Proof.
  intros H. eexists. split; [|split].
  - unfold match_loop.
    apply (for_each_ok (min_distance q) (match_update request) infinity _ _ H).
  - apply (match_fold_best (representative q)).
  - apply (match_fold_all (representative q)).
Qed.

Lemma match_loop_raise e :
  match_loop request = Raise e
  <-> comprehension (min_distance q) (candidate_embeddings request) = Raise e.
Proof.
  apply (for_each_raise_iff (min_distance q) (match_update request)).
Qed.

End MatchLoop.

Section BatchLoop.
Variable request : BatchMatchRequest.

Lemma batch_fold_best (rep : CandidateEmbeddings -> float) g : forall st,
  let st' := fold_left (fun st c => batch_update st c (rep c)) g st in
  (b_best_match st', b_best_distance st')
  = select student_id rep (b_best_match st, b_best_distance st) g.
Proof.
  induction g as [|c g IH]; intros st; cbn; [reflexivity|].
  cbn in IH. rewrite IH. f_equal.
  unfold batch_update, select_step. cbn [snd].
  destruct (rep c <? b_best_distance st); destruct st; reflexivity.
Qed.

Lemma batch_inner_loop_ok q :
  (forall c, In c (bm_candidate_embeddings request) ->
             exists d, min_distance q c = Ok d) ->
  exists st,
    batch_inner_loop request q = Ok st
    /\ (b_best_match st, b_best_distance st)
       = select student_id (representative q) (None, infinity)
           (bm_candidate_embeddings request).
Proof.
  intros H. eexists. split.
  - unfold batch_inner_loop.
    apply (for_each_ok (min_distance q) batch_update infinity _ _ H).
  - apply (batch_fold_best (representative q)).
Qed.

Lemma batch_inner_loop_raise q e :
  batch_inner_loop request q = Raise e
  <-> comprehension (min_distance q) (bm_candidate_embeddings request) = Raise e.
Proof.
  apply (for_each_raise_iff (min_distance q) batch_update).
Qed.

(** The outer loop appends one result per face, in order, and stops at the
    first face whose inner loop raises. *)
Lemma batch_loop_ok faces : forall i acc,
  (forall face, In face faces ->
                exists st, batch_inner_loop request (embedding face) = Ok st) ->
  for_each (batch_body request) acc (enumerate_from i faces)
  = Ok (acc ++ map (fun item =>
                      batch_result request (fst item)
                        (value (batch_inner_loop request) batch_init
                           (embedding (snd item))))
                 (enumerate_from i faces)).
Proof.
  induction faces as [|face faces IH]; intros i acc H; cbn.
  - now rewrite app_nil_r.
  - destruct (H face (or_introl eq_refl)) as [st Hst].
    unfold value at 1. rewrite Hst. cbn.
    rewrite IH by (intros; apply H; now right).
    now rewrite <- app_assoc.
Qed.

Lemma batch_loop_raise faces face e : forall i acc,
  In face faces -> batch_inner_loop request (embedding face) = Raise e ->
  exists e', for_each (batch_body request) acc (enumerate_from i faces) = Raise e'.
Proof.
  induction faces as [|face0 faces IH]; intros i acc Hin He; [contradiction|].
  cbn. destruct (batch_inner_loop request (embedding face0)) as [st|e0] eqn:E0; cbn.
  - destruct Hin as [->|Hin]; [congruence|]. now apply IH.
  - now exists e0.
Qed.

End BatchLoop.

Lemma enumerate_from_nth_error (A : Type) (xs : list A) : forall i k,
  nth_error (enumerate_from i xs) k
  = option_map (fun x => ((i + k)%nat, x)) (nth_error xs k).
Proof.
  induction xs as [|x xs IH]; intros i [|k]; cbn; try reflexivity.
  - now rewrite Nat.add_0_r.
  - rewrite IH. now rewrite Nat.add_succ_r.
Qed.

Lemma enumerate_from_length (A : Type) (xs : list A) i :
  List.length (enumerate_from i xs) = List.length xs.
Proof. revert i. induction xs; intros i; cbn; auto. Qed.

(** * Single-query matching *)

Lemma representative_nil q c : embeddings c = [] -> representative q c = infinity.
Proof. intros H. unfold representative. now rewrite min_distance_nil. Qed.

Lemma match_respond_match request st :
  (best_distance st <? infinity) = true ->
  mf_match (match_respond request st)
  = Some {| mr_student_id :=
              if best_distance st <? threshold request
              then best_match st else None;
            mr_distance := best_distance st;
            mr_confidence :=
              if best_distance st <? threshold request
              then 1 - best_distance st else 0;
            mr_status :=
              if best_distance st <? threshold request
              then "confident"%string else "no_match"%string |}.
Proof.
  intros H. unfold match_respond.
  destruct (best_distance st <? threshold request); cbn; now rewrite H.
Qed.

Lemma match_respond_no_match request st :
  (best_distance st <? infinity) = false ->
  mf_match (match_respond request st) = None.
Proof.
  intros H. unfold match_respond.
  destruct (best_distance st <? threshold request); cbn; now rewrite H.
Qed.

Lemma match_respond_success request st :
  mf_success (match_respond request st) = true
  /\ mf_error (match_respond request st) = None.
Proof.
  unfold match_respond.
  destruct (best_distance st <? threshold request); split; reflexivity.
Qed.

Lemma same_length_total q g :
  same_length q g -> forall c, In c g -> exists d, min_distance q c = Ok d.
Proof.
  intros H c Hc. destruct (min_distance_total q c) as [ds [E _]]; eauto.
Qed.

(** C1 (as amended).  When every reference embedding has the length of the
    query, no distance evaluates to NaN and some distance evaluates below
    infinity, [match_faces] reports a match whose distance is the least of
    all reference distances; it is reached by an embedding of the identity
    [c], every identity before [c] in the gallery is strictly farther, and
    [c] is the identity reported whenever the decision reports one. *)
Theorem match_faces_reports_first_minimum (request : MatchFacesRequest) :
  let q := query_embedding request in
  let g := candidate_embeddings request in
  same_length q g ->
  (forall c e d, reference_distance q g c e d -> number d) ->
  (exists c e d, reference_distance q g c e d /\ (d <? infinity) = true) ->
  exists r g1 c g2 e,
    mf_match (match_faces request) = Some r
    /\ g = g1 ++ c :: g2
    /\ In e (embeddings c)
    /\ distance q e = Ok (mr_distance r)
    /\ (forall c' e' d', reference_distance q g c' e' d' ->
          (mr_distance r <=? d') = true)
    /\ (forall c' e' d', In c' g1 -> In e' (embeddings c') ->
          distance q e' = Ok d' -> (mr_distance r <? d') = true)
    /\ mr_student_id r
       = if mr_distance r <? threshold request
         then Some (student_id c) else None.
Proof.
  intros q g Hlen Hnum (c0 & e0 & d0 & (Hc0 & He0 & Hd0) & Hfin).
  assert (Hrep : forall c, In c g ->
            min_distance q c = Ok (representative q c)
            /\ number (representative q c)
            /\ (forall e d, In e (embeddings c) -> distance q e = Ok d ->
                  (representative q c <=? d) = true)
            /\ (embeddings c <> [] ->
                  exists e, In e (embeddings c)
                            /\ distance q e = Ok (representative q c))).
  { intros c Hc. apply representative_spec.
    - intros e He. now apply (Hlen c e).
    - intros e d He Hd. apply (Hnum c e d). now repeat split. }
  destruct (match_loop_ok request (same_length_total Hlen))
    as (st & Hloop & Hsel & _).
  destruct (select_first student_id (representative q) (xs := g))
    as (g1 & c & g2 & Hg & Hs & Hc & H1 & H2).
  { apply Exists_exists. exists c0. split; [exact Hc0|].
    destruct (Hrep c0 Hc0) as (_ & _ & Hle & _).
    eapply leb_ltb_trans; [apply (Hle e0 d0); assumption | exact Hfin]. }
  fold q g in Hsel. rewrite Hs in Hsel. injection Hsel as Hbm Hbd.
  assert (Hcg : In c g) by (rewrite Hg; apply in_elt).
  destruct (Hrep c Hcg) as (_ & Hcn & _ & Hach).
  destruct Hach as [e [He Hde]].
  { intros Hnil. rewrite (representative_nil q c Hnil) in Hc.
    now rewrite ltb_irrefl in Hc. }
  assert (Hmin : forall c', In c' g -> (representative q c <=? representative q c') = true).
  { intros c' Hc'. destruct (Hrep c' Hc') as (_ & Hn' & _ & _).
    rewrite Hg in Hc'. apply in_app_or in Hc'.
    rewrite Forall_forall in H1, H2.
    destruct Hc' as [Hin | [<- | Hin]].
    - apply ltb_leb, (H1 c'); assumption.
    - now apply leb_refl.
    - apply (H2 c'); assumption. }
  eexists _, g1, c, g2, e. unfold match_faces. rewrite Hloop.
  rewrite match_respond_match by (rewrite Hbd; exact Hc).
  split; [reflexivity|]. cbn [mr_distance mr_student_id]. rewrite Hbd, Hbm.
  repeat split; auto.
  - intros c' e' d' (Hc' & He' & Hd').
    destruct (Hrep c' Hc') as (_ & _ & Hle & _).
    eapply leb_trans; [apply Hmin; exact Hc' | apply (Hle e' d'); assumption].
  - intros c' e' d' Hc' He' Hd'.
    assert (Hc'g : In c' g) by (rewrite Hg; apply in_or_app; now left).
    destruct (Hrep c' Hc'g) as (_ & Hn' & Hle & _).
    rewrite Forall_forall in H1.
    eapply ltb_leb_trans; [apply (H1 c'); assumption | apply (Hle e' d'); assumption].
Qed.

Lemma match_faces_reports_first_minimum_witness :
  same_length [0; 0] spec_gallery
  /\ exists r, mf_match (match_faces (spec_request [0; 0])) = Some r
               /\ mr_student_id r = Some "S1"%string.
Proof.
  assert (Hlen : same_length [0; 0] spec_gallery).
  { intros c e [<-|[<-|[]]] [<-|[]]; reflexivity. }
  split; [exact Hlen|].
  destruct (match_faces_reports_first_minimum (spec_request [0; 0]))
    as (r & g1 & c & g2 & e & Hr & _).
  - exact Hlen.
  - intros c e d (Hc & He & Hd). apply nonneg_number.
    apply (distance_finite_nonneg (a := [0; 0]) (b := e)) in Hd; auto;
      destruct Hc as [<-|[<-|[]]]; destruct He as [<-|[]];
      repeat constructor.
  - exists {| student_id := "S1"; embeddings := [[0; 0]] |}, [0; 0], 0.
    repeat split; try (now left).
  - exists r. split; [exact Hr|].
    vm_compute in Hr. injection Hr as <-. reflexivity.
Defined.

(** C1 fails as stated: one identity with one embedding of the query's
    length, all components finite, and nothing is reported, because the
    only distance overflows to infinity. *)
Lemma match_faces_overflow_reports_nothing :
  (exists c e, In c (candidate_embeddings overflow_request)
               /\ In e (embeddings c))
  /\ same_length (query_embedding overflow_request)
       (candidate_embeddings overflow_request)
  /\ distance [1e200] [-1e200] = Ok infinity
  /\ match_faces overflow_request
     = {| mf_success := true; mf_match := None;
          mf_all_distances := None; mf_error := None |}.
Proof.
  split; [|split; [|split]].
  - exists {| student_id := "S1"; embeddings := [[-1e200]] |}, [-1e200].
    split; left; reflexivity.
  - intros c e [<-|[]] [<-|[]]. reflexivity.
  - vm_compute. reflexivity.
  - vm_compute. reflexivity.
Qed.

(** * Failures *)

Lemma distance_raise_inv q e err :
  distance q e = Raise err ->
  err = BroadcastError (List.length q) (List.length e).
Proof.
  unfold distance, np_sub.
  destruct (Nat.eqb (List.length q) (List.length e)); cbn; [discriminate|].
  destruct q as [|x [|x' q]], e as [|y [|y' e]]; cbn; congruence.
Qed.

Lemma match_faces_raise request err :
  match_loop request = Raise err ->
  match_faces request
  = {| mf_success := false; mf_match := None; mf_all_distances := None;
       mf_error := Some ("Matching error: " ++ str_exn err)%string |}.
Proof. intros H. unfold match_faces. now rewrite H. Qed.

Lemma batch_match_raise request err :
  batch_loop request = Raise err ->
  batch_match request
  = {| bm_success := false; bm_matches := None;
       bm_error := Some ("Batch matching error: " ++ str_exn err)%string |}.
Proof. intros H. unfold batch_match. now rewrite H. Qed.

(** A raising candidate makes either loop over the gallery raise, and what
    is raised is numpy's broadcast error for the query and some reference
    embedding. *)
Lemma gallery_raise q g c e :
  In c g -> In e (embeddings c) ->
  List.length e <> List.length q ->
  List.length q <> 1%nat -> List.length e <> 1%nat ->
  exists n, comprehension (min_distance q) g
            = Raise (BroadcastError (List.length q) n).
Proof.
  intros Hc He Hne Hq1 He1.
  destruct (min_distance_raise q c e He (distance_mismatch q e Hne Hq1 He1))
    as [err Herr].
  destruct (comprehension_raise (min_distance q) g c Hc Herr) as [err' Hraise].
  destruct (comprehension_raise_inv _ _ Hraise) as (c' & _ & Hc').
  destruct (min_distance_raise_inv _ _ Hc') as (e' & _ & He').
  apply distance_raise_inv in He'. subst err'. eauto.
Qed.

Lemma batch_loop_raise_inv request faces e : forall i acc,
  for_each (batch_body request) acc (enumerate_from i faces) = Raise e ->
  exists face, In face faces
               /\ batch_inner_loop request (embedding face) = Raise e.
Proof.
  induction faces as [|face0 faces IH]; intros i acc; cbn; [discriminate|].
  destruct (batch_inner_loop request (embedding face0)) as [st|e0] eqn:E0; cbn.
  - intros H. destruct (IH _ _ H) as (face & Hin & Hf). eauto.
  - intros [= <-]. eauto.
Qed.

(** C2 (as amended).  When the query (in a batch: the embedding of some
    detected face) and some reference embedding differ in length and
    neither has length one, the whole call returns a failure response: no
    match, no distance list, no list of matches, and as error the handler's
    generic prefix followed by numpy's broadcast error. *)
Theorem mismatch_aborts_call (q : Embedding) (g : list CandidateEmbeddings)
  (c : CandidateEmbeddings) (e : Embedding) :
  In c g -> In e (embeddings c) ->
  List.length e <> List.length q ->
  List.length q <> 1%nat -> List.length e <> 1%nat ->
  (forall request,
     query_embedding request = q -> candidate_embeddings request = g ->
     exists n,
       match_faces request
       = {| mf_success := false; mf_match := None; mf_all_distances := None;
            mf_error :=
              Some ("Matching error: "
                      ++ str_exn (BroadcastError (List.length q) n))%string |})
  /\ (forall request face,
        bm_candidate_embeddings request = g ->
        In face (detected_faces request) -> embedding face = q ->
        exists m n,
          batch_match request
          = {| bm_success := false; bm_matches := None;
               bm_error :=
                 Some ("Batch matching error: "
                         ++ str_exn (BroadcastError m n))%string |}).
Proof.
  intros Hc He Hne Hq1 He1.
  destruct (gallery_raise q g c e Hc He Hne Hq1 He1) as [n Hn]. split.
  - intros request <- <-. exists n.
    apply match_faces_raise. now apply match_loop_raise.
  - intros request face <- Hface Hq.
    assert (Hin : batch_inner_loop request (embedding face)
                  = Raise (BroadcastError (List.length q) n)).
    { apply batch_inner_loop_raise. now rewrite Hq. }
    destruct (batch_loop_raise request _ _ 0 [] Hface Hin) as [err Herr].
    destruct (batch_loop_raise_inv _ _ _ _ Herr) as (face' & _ & Hf').
    apply batch_inner_loop_raise in Hf'.
    destruct (comprehension_raise_inv _ _ Hf') as (c' & _ & Hc').
    destruct (min_distance_raise_inv _ _ Hc') as (e' & _ & He').
    apply distance_raise_inv in He'.
    exists (List.length (embedding face')), (List.length e').
    rewrite <- He'. now apply batch_match_raise.
Qed.

Lemma mismatch_aborts_call_witness :
  mf_success (match_faces mismatch_request) = false
  /\ mf_all_distances (match_faces mismatch_request) = None
  /\ bm_matches (batch_match mismatch_batch) = None.
Proof.
  destruct (mismatch_aborts_call [0; 0] mismatch_gallery
              {| student_id := "S1"; embeddings := [[0; 0; 0]] |} [0; 0; 0])
    as [Hm Hb]; try (now left); try (cbn; lia).
  destruct (Hm mismatch_request eq_refl eq_refl) as [n Hn].
  destruct (Hb mismatch_batch {| embedding := [0; 0] |} eq_refl)
    as (m & n' & Hmn); [now left | reflexivity |].
  rewrite Hn, Hmn. repeat split.
Defined.

(** C2 fails as stated: the reference embedding has length one, the query
    length two; the difference is broadcast and the call reports a
    confident match at distance zero. *)
Lemma match_faces_broadcast_coerces :
  (exists c e, In c (candidate_embeddings broadcast_request)
               /\ In e (embeddings c)
               /\ List.length e <> List.length (query_embedding broadcast_request))
  /\ match_faces broadcast_request
     = {| mf_success := true;
          mf_match := Some {| mr_student_id := Some "S1"%string;
                              mr_distance := 0;
                              mr_confidence := 1;
                              mr_status := "confident" |};
          mf_all_distances := None;
          mf_error := None |}.
Proof.
  split.
  - exists {| student_id := "S1"; embeddings := [[0.1]] |}, [0.1].
    repeat split; try (now left). cbn. lia.
  - vm_compute. reflexivity.
Qed.

(** * The decision of [match_faces] *)





(** The confidence is not clamped: a distance above one that is still
    below the threshold gives a negative confidence. *)
Example match_faces_negative_confidence :
  mf_match (match_faces {| query_embedding := [3; 4];
                           candidate_embeddings := spec_gallery;
                           threshold := 6;
                           return_all_distances := false |})
  = Some {| mr_student_id := Some "S1"%string;
            mr_distance := 5;
            mr_confidence := -4;
            mr_status := "confident" |}.
Proof. vm_compute. reflexivity. Qed.

Lemma match_loop_nothing_usable (request : MatchFacesRequest) :
  let q := query_embedding request in
  let g := candidate_embeddings request in
  (forall c, In c g ->
             exists d, min_distance q c = Ok d /\ (d <? infinity) = false) ->
  match_loop request
  = Ok {| best_match := None;
          best_distance := infinity;
          all_distances :=
            if return_all_distances request
            then map (fun c => {| di_student_id := student_id c;
                                  di_min_distance := representative q c |}) g
            else [] |}.
Proof.
  intros q g H.
  destruct (match_loop_ok request) as (st & Hloop & Hsel & Hall).
  { intros c Hc. destruct (H c Hc) as (d & Hd & _). eauto. }
  fold q g in Hsel, Hall.
  rewrite select_none in Hsel.
  2:{ apply Forall_forall. intros c Hc. destruct (H c Hc) as (d & Hd & Hlt).
      unfold representative. now rewrite Hd. }
  rewrite Hloop. destruct st. cbn in *. injection Hsel as -> ->. now subst.
Qed.

(** C4 (as amended).  When the distances of every identity of the gallery
    evaluate and no identity is usable (an empty gallery, identities
    without embeddings), the call succeeds and reports no match result at
    all: no status, no distance, no identity.  The distance list is absent
    unless it was requested; when requested it lists every identity with
    its representative distance. *)
Theorem match_faces_nothing_usable (request : MatchFacesRequest) :
  let q := query_embedding request in
  let g := candidate_embeddings request in
  (forall c, In c g -> exists d, min_distance q c = Ok d) ->
  (forall c, In c g -> ~ usable q c) ->
  match_faces request
  = {| mf_success := true;
       mf_match := None;
       mf_all_distances :=
         if return_all_distances request
         then Some (map (fun c => {| di_student_id := student_id c;
                                     di_min_distance := representative q c |}) g)
         else None;
       mf_error := None |}.
Proof.
  intros q g Hev Hus.
  unfold match_faces. rewrite (match_loop_nothing_usable request).
  - unfold match_respond. cbn [best_distance best_match all_distances].
    rewrite !infinity_ltb.
    destruct (return_all_distances request); reflexivity.
  - intros c Hc. destruct (Hev c Hc) as [d Hd]. exists d. split; [exact Hd|].
    destruct (d <? infinity) eqn:E; [|reflexivity].
    exfalso. apply (Hus c Hc). now exists d.
Qed.

Lemma match_faces_nothing_usable_witness :
  match_faces unenrolled_request
  = {| mf_success := true;
       mf_match := None;
       mf_all_distances :=
         Some [ {| di_student_id := "S0"; di_min_distance := infinity |} ];
       mf_error := None |}.
Proof.
  rewrite (match_faces_nothing_usable unenrolled_request).
  - reflexivity.
  - intros c [<-|[]]. exists infinity. reflexivity.
  - intros c [<-|[]] (d & Hd & Hlt).
    rewrite (min_distance_nil _ unenrolled eq_refl) in Hd.
    assert (d = infinity) as -> by congruence.
    now rewrite ltb_irrefl in Hlt.
Defined.

(** C4 fails as stated: with an identity without embeddings and the
    distance list requested, there is no match result (so neither a status
    nor a distance), and there is a distance list. *)
Lemma match_faces_unenrolled_no_result :
  (forall c, In c (candidate_embeddings unenrolled_request) ->
             embeddings c = [])
  /\ mf_match (match_faces unenrolled_request) = None
  /\ mf_all_distances (match_faces unenrolled_request)
     = Some [ {| di_student_id := "S0"; di_min_distance := infinity |} ].
Proof.
  split; [|split].
  - intros c [<-|[]]. reflexivity.
  - vm_compute. reflexivity.
  - vm_compute. reflexivity.
Qed.

Example match_faces_empty_gallery :
  match_faces {| query_embedding := [0; 0];
                 candidate_embeddings := [];
                 threshold := 0.6;
                 return_all_distances := false |}
  = {| mf_success := true; mf_match := None;
       mf_all_distances := None; mf_error := None |}.
Proof. vm_compute. reflexivity. Qed.

(** * Identities without embeddings *)

Lemma for_each_Ok_total (A B S : Type) (f : A -> result B)
  (upd : S -> A -> B -> S) xs st st' :
  for_each (stepwise f upd) st xs = Ok st' ->
  forall x, In x xs -> exists d, f x = Ok d.
Proof.
  intros H x Hx. destruct (f x) as [d|e] eqn:E; [eauto|].
  destruct (comprehension_raise f xs x Hx E) as [e' He'].
  apply (for_each_raise_iff f upd xs e' st) in He'. congruence.
Qed.

Lemma NoDup_map_inj (A B : Type) (f : A -> B) xs a b :
  NoDup (map f xs) -> In a xs -> In b xs -> f a = f b -> a = b.
Proof.
  induction xs as [|x xs IH]; intros Hnd Ha Hb Hab; [contradiction|].
  cbn in Hnd. inversion_clear Hnd as [|? ? Hnotin Hnd'].
  destruct Ha as [->|Ha], Hb as [->|Hb]; auto.
  - exfalso. apply Hnotin. rewrite Hab. now apply in_map.
  - exfalso. apply Hnotin. rewrite <- Hab. now apply in_map.
Qed.

(** In a gallery of distinct ids, a name both loops select belongs to an
    identity with an embedding. *)
Lemma selected_has_embedding q g c id d :
  NoDup (map student_id g) -> In c g -> embeddings c = [] ->
  select student_id (representative q) (None, infinity) g = (Some id, d) ->
  id <> student_id c.
Proof.
  intros Hnd Hc Hnil Hs Hid.
  destruct (select_Some student_id (representative q) g Hs)
    as (c' & Hc' & Hname & Hkey & Hlt).
  assert (c' = c) as ->.
  { apply (NoDup_map_inj student_id g); auto. congruence. }
  rewrite <- Hkey, (representative_nil q c Hnil), ltb_irrefl in Hlt.
  discriminate.
Qed.

(** C5.  An identity without embeddings has the representative distance
    [float('inf')]; the iteration of either loop over it leaves the best
    match and the best distance as they were; and in a gallery of distinct
    ids neither [match_faces] nor [batch_match] reports it. *)
Theorem empty_identity_never_selected (c : CandidateEmbeddings) :
  embeddings c = [] ->
  (forall q, min_distance q c = Ok infinity)
  /\ (forall request st,
        exists st', match_body request st c = Ok st'
                    /\ best_match st' = best_match st
                    /\ best_distance st' = best_distance st)
  /\ (forall q st, batch_inner_body q st c = Ok st)
  /\ (forall request r,
        In c (candidate_embeddings request) ->
        NoDup (map student_id (candidate_embeddings request)) ->
        mf_match (match_faces request) = Some r ->
        mr_student_id r <> Some (student_id c))
  /\ (forall request matches m,
        In c (bm_candidate_embeddings request) ->
        NoDup (map student_id (bm_candidate_embeddings request)) ->
        bm_matches (batch_match request) = Some matches ->
        In m matches ->
        br_student_id m <> Some (student_id c)).
Proof.
  intros Hnil. split; [|split; [|split; [|split]]].
  - intros q. now apply min_distance_nil.
  - intros request st. unfold match_body.
    rewrite (min_distance_nil _ c Hnil). cbn. eexists. split; [reflexivity|].
    unfold match_update. rewrite infinity_ltb. split; reflexivity.
  - intros q st. unfold batch_inner_body.
    rewrite (min_distance_nil _ c Hnil). cbn.
    unfold batch_update. now rewrite infinity_ltb.
  - intros request r Hc Hnd Hr.
    unfold match_faces in Hr.
    destruct (match_loop request) as [st|e] eqn:Hloop; [|discriminate].
    destruct (match_loop_ok request) as (st' & Hloop' & Hsel & _).
    { exact (for_each_Ok_total _ _ _ _ Hloop). }
    rewrite Hloop in Hloop'. injection Hloop' as <-.
    destruct (best_distance st <? infinity) eqn:Hinf.
    + rewrite match_respond_match in Hr by exact Hinf. injection Hr as <-. cbn.
      destruct (best_distance st <? threshold request); [|discriminate].
      intros Hbm. rewrite Hbm in Hsel. symmetry in Hsel.
      exact (selected_has_embedding _ _ _ Hnd Hc Hnil Hsel eq_refl).
    + now rewrite match_respond_no_match in Hr.
  - intros request matches m Hc Hnd Hms Hm.
    unfold batch_match in Hms.
    destruct (batch_loop request) as [ms|e] eqn:Hloop; [|discriminate].
    injection Hms as ->. unfold batch_loop, enumerate in Hloop.
    assert (Hall : forall face, In face (detected_faces request) ->
              exists st, batch_inner_loop request (embedding face) = Ok st).
    { intros face Hf.
      destruct (batch_inner_loop request (embedding face)) as [st|e] eqn:E; [eauto|].
      destruct (batch_loop_raise request _ _ 0 [] Hf E) as [e' He']. congruence. }
    rewrite (batch_loop_ok request _ 0 [] Hall) in Hloop.
    injection Hloop as <-. cbn in Hm. apply in_map_iff in Hm.
    destruct Hm as ((k & face) & <- & Hin). cbn [fst snd].
    assert (Hf : In face (detected_faces request)).
    { clear - Hin. revert Hin. generalize 0%nat.
      induction (detected_faces request) as [|f fs IH]; intros i; cbn; [tauto|].
      intros [[= _ ->]|H]; [now left | right; eauto]. }
    destruct (Hall face Hf) as [st Hst].
    destruct (batch_inner_loop_ok request (embedding face)) as (st' & Hst' & Hsel).
    { exact (for_each_Ok_total _ _ _ _ Hst). }
    unfold value. rewrite Hst. rewrite Hst in Hst'. injection Hst' as <-.
    unfold batch_result.
    destruct (b_best_distance st <? confident_threshold request); [|discriminate].
    cbn. intros Hbm. rewrite Hbm in Hsel. symmetry in Hsel.
    exact (selected_has_embedding _ _ _ Hnd Hc Hnil Hsel eq_refl).
Qed.

Lemma empty_identity_never_selected_witness :
  min_distance [0; 0] unenrolled = Ok infinity
  /\ batch_inner_body [0; 0] batch_init unenrolled = Ok batch_init.
Proof.
  destruct (empty_identity_never_selected unenrolled eq_refl)
    as (H1 & _ & H3 & _).
  split; [apply H1 | apply H3].
Defined.

(** * Batch matching *)

Lemma batch_match_ok request matches :
  batch_loop request = Ok matches ->
  batch_match request
  = {| bm_success := true; bm_matches := Some matches; bm_error := None |}.
Proof. intros H. unfold batch_match. now rewrite H. Qed.

(** The inner loop of [batch_match] for a face and the loop of
    [match_faces] for the request the face stands for raise together and
    otherwise end with the same best match and best distance. *)
Lemma batch_inner_loop_single request face :
  match batch_inner_loop request (embedding face),
        match_loop (single_request request face) with
  | Ok bst, Ok st =>
      b_best_match bst = best_match st
      /\ b_best_distance bst = best_distance st
      /\ (b_best_match bst, b_best_distance bst)
         = select student_id (representative (embedding face))
             (None, infinity) (bm_candidate_embeddings request)
  | Raise e, Raise e' => e = e'
  | _, _ => False
  end.
Proof.
  destruct (batch_inner_loop request (embedding face)) as [bst|e] eqn:Hb.
  - destruct (batch_inner_loop_ok request (embedding face)) as (bst' & Hb' & Hbs).
    { exact (for_each_Ok_total _ _ _ _ Hb). }
    rewrite Hb in Hb'. injection Hb' as <-.
    destruct (match_loop_ok (single_request request face)) as (st & Hm & Hms & _).
    { exact (for_each_Ok_total _ _ _ _ Hb). }
    rewrite Hm. unfold single_request in Hms.
    cbn [query_embedding candidate_embeddings] in Hms. rewrite <- Hbs in Hms.
    injection Hms as H1 H2. repeat split; congruence.
  - apply batch_inner_loop_raise in Hb.
    apply (match_loop_raise (single_request request face)) in Hb.
    now rewrite Hb.
Qed.

Lemma select_not_below (A : Type) (name : A -> string) (key : A -> float) xs bm bd :
  select name key (None, infinity) xs = (bm, bd) ->
  (bd <? infinity) = false -> bm = None /\ bd = infinity.
Proof.
  intros Hs Hlt.
  destruct (select_spec name key xs None (bd0 := infinity) eq_refl)
    as [[Hr _] | (xs1 & c & xs2 & _ & Hr & Hc & _)];
    rewrite Hr in Hs; injection Hs as <- <-; [auto | congruence].
Qed.

(** C6.  Over embeddings of equal length the batch call succeeds with one
    result per detected face, in the order of the faces; the result at
    position [k] carries [face_index = k], its status is ["present"] when
    its distance is below the threshold and ["unknown"] otherwise, and it
    agrees with [match_faces] on the request that face stands for:
    same identity and distance, ["present"] for ["confident"] and
    ["unknown"] for ["no_match"] (or for no match result at all). *)
Theorem batch_match_per_query (request : BatchMatchRequest) :
  (forall face, In face (detected_faces request) ->
     same_length (embedding face) (bm_candidate_embeddings request)) ->
  exists matches,
    batch_match request
    = {| bm_success := true; bm_matches := Some matches; bm_error := None |}
    /\ List.length matches = List.length (detected_faces request)
    /\ forall k face,
         nth_error (detected_faces request) k = Some face ->
         exists m,
           nth_error matches k = Some m
           /\ face_index m = k
           /\ br_status m
              = (if br_distance m <? confident_threshold request
                 then "present"%string else "unknown"%string)
           /\ match mf_match (match_faces (single_request request face)) with
              | Some r =>
                  br_student_id m = mr_student_id r
                  /\ br_distance m = mr_distance r
                  /\ (br_status m = "present"%string
                      <-> mr_status r = "confident"%string)
                  /\ (br_status m = "unknown"%string
                      <-> mr_status r = "no_match"%string)
              | None =>
                  br_student_id m = None
                  /\ br_distance m = infinity
                  /\ br_status m = "unknown"%string
              end.
Proof.
  intros Hlen.
  assert (Hall : forall face, In face (detected_faces request) ->
            exists st, batch_inner_loop request (embedding face) = Ok st).
  { intros face Hf.
    destruct (batch_inner_loop_ok request (embedding face)) as (st & Hst & _);
      [exact (same_length_total (Hlen face Hf)) | eauto]. }
  eexists. split; [|split].
  - apply batch_match_ok. unfold batch_loop, enumerate.
    apply (batch_loop_ok request _ 0 [] Hall).
  - cbn. now rewrite length_map, enumerate_from_length.
  - intros k face Hk. cbn.
    rewrite nth_error_map, enumerate_from_nth_error, Hk. cbn.
    eexists. split; [reflexivity|].
    pose proof (batch_inner_loop_single request face) as Hsingle.
    destruct (Hall face (nth_error_In _ _ Hk)) as [bst Hbst].
    unfold value. rewrite Hbst in *.
    unfold match_faces.
    destruct (match_loop (single_request request face)) as [st|e];
      [|contradiction].
    destruct Hsingle as (Hbm & Hbd & Hsel).
    unfold batch_result.
    destruct (b_best_distance bst <? confident_threshold request) eqn:Hthr;
      cbn [face_index br_student_id br_distance br_status];
      rewrite Hthr; (split; [reflexivity|]); (split; [reflexivity|]).
    all: destruct (best_distance st <? infinity) eqn:Hinf.
    all: try (rewrite match_respond_match by exact Hinf;
              cbn [single_request threshold];
              rewrite <- Hbd, Hthr, ?Hbm; cbn;
              repeat split; auto; discriminate).
    all: rewrite match_respond_no_match by exact Hinf.
    all: rewrite <- Hbd in Hinf.
    all: destruct (select_not_below _ _ _ (eq_sym Hsel) Hinf) as [Hn Hi].
    + rewrite Hi, infinity_ltb in Hthr. discriminate.
    + auto.
Qed.

Lemma batch_match_per_query_witness :
  exists matches,
    bm_matches (batch_match spec_batch) = Some matches
    /\ map face_index matches = [0; 1; 2]%nat
    /\ map br_status matches = ["present"; "unknown"; "present"]%string.
Proof.
  destruct (batch_match_per_query spec_batch) as (matches & Hm & _).
  - intros face [<-|[<-|[<-|[]]]] c e [<-|[<-|[]]] [<-|[]]; reflexivity.
  - exists matches. rewrite Hm. split; [reflexivity|].
    vm_compute in Hm. injection Hm as <-. split; reflexivity.
Defined.

(** C8.  When [match_faces] fails on the request some detected face stands
    for, the batch call as a whole returns a failure response: it carries an
    error message and no list of matches, whatever the results of the faces
    before. *)
Theorem batch_match_aborts_on_failure (request : BatchMatchRequest)
  (face : DetectedFace) :
  In face (detected_faces request) ->
  mf_success (match_faces (single_request request face)) = false ->
  bm_success (batch_match request) = false
  /\ bm_matches (batch_match request) = None
  /\ exists err,
       bm_error (batch_match request)
       = Some ("Batch matching error: " ++ str_exn err)%string.
Proof.
  intros Hface Hfail.
  pose proof (batch_inner_loop_single request face) as Hsingle.
  unfold match_faces in Hfail.
  destruct (match_loop (single_request request face)) as [st|e].
  - destruct (match_respond_success (single_request request face) st). congruence.
  - destruct (batch_inner_loop request (embedding face)) as [bst|e0] eqn:Hb;
      [contradiction|].
    destruct (batch_loop_raise request _ _ 0 [] Hface Hb) as [err Herr].
    rewrite (batch_match_raise request Herr). cbn. eauto.
Qed.

Lemma batch_match_aborts_on_failure_witness :
  bm_success (batch_match mismatch_batch) = false
  /\ bm_matches (batch_match mismatch_batch) = None.
Proof.
  destruct (batch_match_aborts_on_failure mismatch_batch
              {| embedding := [0; 0] |}) as (H1 & H2 & _).
  - now left.
  - vm_compute. reflexivity.
  - split; assumption.
Defined.

(** A failure after a face that matched: nothing of the first result is
    returned. *)
Example batch_match_no_partial_results :
  batch_match {| detected_faces :=
                   [ {| embedding := [0; 0] |}; {| embedding := [0; 0; 0] |} ];
                 bm_candidate_embeddings := spec_gallery;
                 confident_threshold := 0.6 |}
  = {| bm_success := false;
       bm_matches := None;
       bm_error :=
         Some "Batch matching error: operands could not be broadcast together with shapes (3,) (2,) "%string |}.
Proof. vm_compute. reflexivity. Qed.

(** C10.  When every identity of the gallery is without embeddings (in
    particular when the gallery is empty), the batch call succeeds with one
    result per detected face carrying its index, no identity, the distance
    [float('inf')] and the status ["unknown"]; [match_faces] over the same
    gallery succeeds without any match result. *)
Theorem batch_match_empty_gallery (request : BatchMatchRequest) :
  (forall c, In c (bm_candidate_embeddings request) -> embeddings c = []) ->
  batch_match request
  = {| bm_success := true;
       bm_matches :=
         Some (map (fun item => {| face_index := fst item;
                                   br_student_id := None;
                                   br_distance := infinity;
                                   br_status := "unknown" |})
                 (enumerate (detected_faces request)));
       bm_error := None |}
  /\ forall single,
       candidate_embeddings single = bm_candidate_embeddings request ->
       mf_success (match_faces single) = true
       /\ mf_match (match_faces single) = None.
Proof.
  intros Hnil.
  assert (Hinner : forall q,
            batch_inner_loop request q = Ok batch_init).
  { intros q.
    destruct (batch_inner_loop_ok request q) as (st & Hst & Hsel).
    { intros c Hc. exists infinity. apply min_distance_nil. auto. }
    rewrite select_none in Hsel.
    - rewrite Hst. destruct st. cbn in Hsel. injection Hsel as -> ->. reflexivity.
    - apply Forall_forall. intros c Hc.
      rewrite representative_nil by auto. apply ltb_irrefl. }
  split.
  - apply batch_match_ok. unfold batch_loop, enumerate.
    rewrite (batch_loop_ok request _ 0 []) by eauto. cbn. f_equal.
    apply map_ext. intros [k face]. unfold value. rewrite Hinner.
    unfold batch_result. cbn. now rewrite infinity_ltb.
  - intros single Hg.
    unfold match_faces. rewrite (match_loop_nothing_usable single).
    + split; [apply match_respond_success|].
      apply match_respond_no_match. apply ltb_irrefl.
    + intros c Hc. exists infinity. rewrite Hg in Hc.
      split; [apply min_distance_nil; auto | apply ltb_irrefl].
Qed.

Lemma batch_match_empty_gallery_witness :
  bm_matches (batch_match unenrolled_batch)
  = Some [ {| face_index := 0; br_student_id := None;
              br_distance := infinity; br_status := "unknown" |};
           {| face_index := 1; br_student_id := None;
              br_distance := infinity; br_status := "unknown" |} ]
  /\ mf_match (match_faces unenrolled_request) = None.
Proof.
  destruct (batch_match_empty_gallery unenrolled_batch) as [Hb Hs].
  - intros c [<-|[]]. reflexivity.
  - rewrite Hb. split; [reflexivity|].
    apply (Hs unenrolled_request). reflexivity.
Defined.

(** * The distance function *)

(** C7 (as amended).  On embeddings of equal length with finite
    components the distance evaluates, is symmetric and is at least zero;
    the distance of an embedding to itself is zero, so identical embeddings
    are at distance zero.  The distance is zero exactly when every squared
    difference of two components evaluates to zero; hence, when no squared
    difference of two distinct components is zero, as when the components
    that are not identical differ by [2^-537] or more, the distance is zero
    only if the embeddings are identical. *)
Theorem distance_on_finite_embeddings (a b : Embedding) :
  List.length a = List.length b ->
  Forall finite a -> Forall finite b ->
  exists d,
    distance a b = Ok d
    /\ distance b a = Ok d
    /\ (0 <=? d) = true
    /\ distance a a = Ok 0
    /\ (a = b -> d = 0)
    /\ (d = 0 <-> Forall2 (fun x y => (x - y) * (x - y) = 0) a b)
    /\ (Forall2 (fun x y => x <> y -> (x - y) * (x - y) <> 0) a b ->
        d = 0 -> a = b)
    /\ (Forall2 (fun x y => x = y \/ (0x1p-537 <=? abs (x - y)) = true) a b ->
        d = 0 -> a = b).
Proof.
  intros Hlen Ha Hb.
  assert (Hself : forall x, Forall finite x -> np_linalg_norm (zip_sub x x) = 0).
  { intros x Hx. unfold np_linalg_norm, np_dot_self.
    now rewrite dot_zip_sub_diag. }
  assert (Hzero : np_linalg_norm (zip_sub a b) = 0
                  <-> Forall2 (fun x y => (x - y) * (x - y) = 0) a b).
  { unfold np_linalg_norm, np_dot_self.
    rewrite sqrt_zero_iff by (apply dot_zip_sub_nonneg; auto using nonneg_zero).
    rewrite (@dot_zip_sub_zero_iff a b 0 Hlen Ha Hb nonneg_zero). tauto. }
  assert (Hconv : Forall2 (fun x y => x <> y -> (x - y) * (x - y) <> 0) a b ->
                  np_linalg_norm (zip_sub a b) = 0 -> a = b).
  { intros Hsq Hd. apply Hzero in Hd. clear Hzero Hlen Ha Hb Hself.
    induction Hsq as [|x y a b Hxy Hsq IH]; [reflexivity|].
    inversion_clear Hd as [|? ? ? ? H0 Hd'].
    destruct (float_eq_dec x y) as [->|Hne]; [|now apply Hxy in Hne].
    f_equal. now apply IH. }
  exists (np_linalg_norm (zip_sub a b)). repeat split.
  - now apply distance_same_length.
  - rewrite distance_same_length by auto.
    unfold np_linalg_norm, np_dot_self. now rewrite dot_zip_sub_comm.
  - apply nonneg_leb, (distance_finite_nonneg Hlen Ha Hb).
    now apply distance_same_length.
  - rewrite distance_same_length by auto. now rewrite Hself.
  - intros <-. now apply Hself.
  - apply Hzero.
  - apply Hzero.
  - now apply Hconv.
  - intros Hfar. apply Hconv. revert Hfar. apply Forall2_impl.
    intros x y [Hxy|Hxy] Hne; [contradiction|].
    now apply above_zero_nonzero, square_above_zero.
Qed.

Lemma distance_on_finite_embeddings_witness :
  exists d, distance [0; 0] [3; 4] = Ok d
            /\ distance [3; 4] [0; 0] = Ok d
            /\ d <> 0.
Proof.
  destruct (distance_on_finite_embeddings (a := [0; 0]) (b := [3; 4]))
    as (d & H1 & H2 & _ & _ & _ & H3 & _).
  - reflexivity.
  - repeat constructor.
  - repeat constructor.
  - exists d. repeat split; try assumption.
    intros Hd. apply H3 in Hd. inversion_clear Hd as [|? ? ? ? H0 _].
    apply (f_equal Prim2SF) in H0. vm_compute in H0. discriminate.
Defined.

(** C7 fails as stated: two embeddings of equal length with finite
    components that differ, at distance zero, because the square of their
    difference underflows. *)
Lemma distance_zero_of_distinct :
  List.length [1e-200] = List.length [0]
  /\ Forall finite [1e-200] /\ Forall finite [0]
  /\ (1e-200 =? 0) = false
  /\ [1e-200] <> [0]
  /\ distance [1e-200] [0] = Ok 0.
Proof.
  repeat split; try (repeat constructor).
  intros H.
  apply (f_equal (fun l => match l with x :: _ => x =? 0 | [] => true end)) in H.
  vm_compute in H. discriminate.
Qed.

(** * The gates on the provider's output *)

Lemma truediv_fits a b :
  b <> 0%Z -> (Z.abs a < 2 ^ 53)%Z -> (Z.abs b < 2 ^ 53)%Z ->
  truediv a b = Ok (float_of_Z a / float_of_Z b).
Proof.
  intros Hb Ha Hb'. unfold truediv, fits_double.
  destruct (Z.eqb_spec b 0) as [E|_]; [contradiction|].
  apply Z.ltb_lt in Ha, Hb'. now rewrite Ha, Hb'.
Qed.

Lemma detect_loop request image_area items : forall faces,
  image_area <> 0%Z -> (Z.abs image_area < 2 ^ 53)%Z ->
  Forall (fun item => (Z.abs (face_area (fst item)) < 2 ^ 53)%Z) items ->
  for_each (detect_body request image_area) faces items
  = Ok (faces ++
          map (fun item =>
                 {| dfi_embedding := snd item;
                    dfi_location := fst item;
                    dfi_face_area_ratio :=
                      float_of_Z (face_area (fst item)) / float_of_Z image_area |})
            (filter (fun item =>
                       negb (float_of_Z (face_area (fst item))
                               / float_of_Z image_area
                             <? df_min_face_area_ratio request))
               items)).
Proof.
  induction items as [|[loc enc] items IH]; intros faces Harea Hfit Hitems; cbn.
  - now rewrite app_nil_r.
  - inversion Hitems as [|item items' Hloc Hrest]; subst. cbn [fst] in Hloc.
    rewrite (@truediv_fits _ _ Harea Hloc Hfit). cbn.
    destruct (_ <? df_min_face_area_ratio request); cbn;
      rewrite IH by assumption.
    + reflexivity.
    + now rewrite <- app_assoc.
Qed.

Lemma Forall_combine_fst (A B : Type) (Q : A -> Prop) (xs : list A) :
  forall ys : list B,
    Forall Q xs -> Forall (fun item => Q (fst item)) (combine xs ys).
Proof.
  induction xs as [|x xs IH]; intros [|y ys] H; cbn; try constructor.
  - now inversion H.
  - apply IH. now inversion H.
Qed.

(** C9.  With single-face validation requested and more than one face
    located, [encode_face] fails with the code for multiple faces and
    returns no embedding.  In [detect_faces], over an image of non-zero
    area, with the areas of the image and of the located faces below
    [2^53] as pixel counts are, the call succeeds and returns, in order,
    exactly the located faces whose area ratio is not below the minimum: a
    face below it is left out and nothing else changes. *)
Theorem face_gates (P : Provider) :
  (forall request image_bytes image_np locations,
     b64decode (ef_image_base64 request) = Ok image_bytes ->
     image_open image_bytes = Ok image_np ->
     face_locations image_np 1 "hog" = Ok locations ->
     validate_single request = true ->
     (1 < List.length locations)%nat ->
     encode_face request
     = {| ef_success := false;
          ef_embedding := None;
          ef_face_location := None;
          ef_metadata := None;
          ef_error := Some "Multiple faces detected"%string;
          ef_error_code := Some ERROR_MULTIPLE_FACES |})
  /\ (forall request image_bytes image_np locations encodings,
        b64decode (df_image_base64 request) = Ok image_bytes ->
        image_open image_bytes = Ok image_np ->
        face_locations image_np 1 (df_model request) = Ok locations ->
        face_encodings image_np locations (df_num_jitters request) "small"
        = Ok encodings ->
        let image_area :=
          (fst (image_shape image_np) * snd (image_shape image_np))%Z in
        let ratio loc := float_of_Z (face_area loc) / float_of_Z image_area in
        image_area <> 0%Z ->
        (Z.abs image_area < 2 ^ 53)%Z ->
        Forall (fun loc => (Z.abs (face_area loc) < 2 ^ 53)%Z) locations ->
        df_success (detect_faces request) = true
        /\ df_faces (detect_faces request)
           = Some (map (fun item =>
                          {| dfi_embedding := snd item;
                             dfi_location := fst item;
                             dfi_face_area_ratio := ratio (fst item) |})
                     (filter (fun item =>
                                negb (ratio (fst item)
                                      <? df_min_face_area_ratio request))
                        (combine locations encodings)))).
Proof.
  split.
  - intros request image_bytes image_np locations Hb Ho Hl Hv Hn.
    unfold encode_face. rewrite Hb. unfold encode_face_try. rewrite Ho. cbn.
    destruct (image_shape image_np) as [h w]. rewrite Hl. cbn.
    destruct locations as [|loc [|loc' locations]]; try (cbn in Hn; lia).
    rewrite Hv. reflexivity.
  - intros request image_bytes image_np locations encodings Hb Ho Hl He
      image_area ratio Harea Hfit Hlocs.
    unfold detect_faces. rewrite Hb. unfold detect_faces_try. rewrite Ho. cbn.
    subst image_area ratio. destruct (image_shape image_np) as [h w].
    cbn [fst snd] in *. rewrite Hl. cbn.
    destruct locations as [|loc locations]; [split; reflexivity|].
    rewrite He. cbn [bind].
    rewrite (@detect_loop request (h * w)%Z
               (combine (loc :: locations) encodings) [] Harea Hfit
               (@Forall_combine_fst _ _
                  (fun loc => (Z.abs (face_area loc) < 2 ^ 53)%Z)
                  _ encodings Hlocs)).
    split; reflexivity.
Qed.

Lemma face_gates_witness :
  ef_error_code (encode_face (P := two_faces_provider) two_faces_encode)
  = Some ERROR_MULTIPLE_FACES
  /\ option_map (map dfi_location)
       (df_faces (detect_faces (P := two_faces_provider) two_faces_detect))
     = Some [ {| top := 0; right := 50; bottom := 50; left := 0 |} ].
Proof.
  destruct (face_gates two_faces_provider) as [He Hd]. split.
  - rewrite (He two_faces_encode "image"%string tt two_faces); try reflexivity. cbn. lia.
  - destruct (Hd two_faces_detect "image"%string tt two_faces _
                eq_refl eq_refl eq_refl eq_refl) as [_ Hf].
    + cbn. lia.
    + cbn. lia.
    + repeat constructor.
    + rewrite Hf. vm_compute. reflexivity.
Defined.

(** The quotient of two integers is rounded once: it differs from the
    quotient of the two conversions when an operand does not fit a
    double. *)
Example truediv_rounds_once :
  truediv 55279535203338629 3 = Ok 1.842651173444621e+16
  /\ float_of_Z 55279535203338629 / float_of_Z 3 = 1.8426511734446212e+16
  /\ truediv 0 (-5) = Ok (-0).
Proof. repeat split; vm_compute; reflexivity. Qed.

Example truediv_raises :
  truediv (2 ^ 1200) 1
  = Raise (OtherError "integer division result too large for a float")
  /\ truediv (2 ^ 1200) (2 ^ 1100) = Ok 0x1p+100
  /\ truediv 1 0 = Raise (OtherError "division by zero").
Proof. repeat split; vm_compute; reflexivity. Qed.

(** A face whose area over the area of the image is too large for a float:
    neither handler returns a ratio, both report the failure of the
    division. *)
Example huge_face_fails :
  encode_face (P := huge_face_provider) first_face_encode
  = {| ef_success := false;
       ef_embedding := None;
       ef_face_location := None;
       ef_metadata := None;
       ef_error :=
         Some "Processing error: integer division result too large for a float"%string;
       ef_error_code := Some ERROR_PROCESSING |}
  /\ detect_faces (P := huge_face_provider) two_faces_detect
     = {| df_success := false;
          df_faces := None;
          df_count := None;
          df_metadata := None;
          df_error :=
            Some "Detection error: integer division result too large for a float"%string |}.
Proof. split; vm_compute; reflexivity. Qed.

(** * The examples of the spec, evaluated *)

Example match_faces_spec_exact :
  match_faces (spec_request [0; 0])
  = {| mf_success := true;
       mf_match := Some {| mr_student_id := Some "S1"%string;
                           mr_distance := 0;
                           mr_confidence := 1;
                           mr_status := "confident" |};
       mf_all_distances := None;
       mf_error := None |}.
Proof. vm_compute. reflexivity. Qed.

(** The nearest identity is at [sqrt 50], above the threshold: it is not
    reported.  Both identities are at that distance and the distance list
    shows it. *)
Example match_faces_spec_far :
  match_faces {| query_embedding := [5; 5];
                 candidate_embeddings := spec_gallery;
                 threshold := 0.6;
                 return_all_distances := true |}
  = {| mf_success := true;
       mf_match := Some {| mr_student_id := None;
                           mr_distance := sqrt 50;
                           mr_confidence := 0;
                           mr_status := "no_match" |};
       mf_all_distances :=
         Some [ {| di_student_id := "S1"; di_min_distance := sqrt 50 |};
                {| di_student_id := "S2"; di_min_distance := sqrt 50 |} ];
       mf_error := None |}.
Proof. vm_compute. reflexivity. Qed.

(** An identity with three embeddings matches at the distance of the
    closest one. *)
Example match_faces_closest_embedding :
  mf_match (match_faces
              {| query_embedding := [0; 0];
                 candidate_embeddings :=
                   [ {| student_id := "S1";
                        embeddings := [[3; 4]; [0; 0.5]; [6; 8]] |} ];
                 threshold := 0.6;
                 return_all_distances := false |})
  = Some {| mr_student_id := Some "S1"%string;
            mr_distance := 0.5;
            mr_confidence := 0.5;
            mr_status := "confident" |}.
Proof. vm_compute. reflexivity. Qed.

(** On a tie the identity met first is kept. *)
Example match_faces_tie_keeps_first :
  mf_match (match_faces
              {| query_embedding := [5; 5];
                 candidate_embeddings := spec_gallery;
                 threshold := 10;
                 return_all_distances := false |})
  = Some {| mr_student_id := Some "S1"%string;
            mr_distance := sqrt 50;
            mr_confidence := 1 - sqrt 50;
            mr_status := "confident" |}.
Proof. vm_compute. reflexivity. Qed.

Example match_faces_mismatch_message :
  match_faces mismatch_request
  = {| mf_success := false;
       mf_match := None;
       mf_all_distances := None;
       mf_error :=
         Some "Matching error: operands could not be broadcast together with shapes (2,) (3,) "%string |}.
Proof. vm_compute. reflexivity. Qed.

Example batch_match_spec :
  batch_match spec_batch
  = {| bm_success := true;
       bm_matches :=
         Some [ {| face_index := 0; br_student_id := Some "S1"%string;
                   br_distance := 0; br_status := "present" |};
                {| face_index := 1; br_student_id := None;
                   br_distance := sqrt 50; br_status := "unknown" |};
                {| face_index := 2; br_student_id := Some "S2"%string;
                   br_distance := 0; br_status := "present" |} ];
       bm_error := None |}.
Proof. vm_compute. reflexivity. Qed.

(** * Further properties: floats *)

Lemma nonneg_antisym x y :
  nonneg x -> nonneg y ->
  (x <=? y) = true -> (y <=? x) = true -> x = y.
Proof.
  intros Hx Hy Hxy Hyx.
  pose proof (nonneg_number x Hx) as Nx. pose proof (nonneg_number y Hy) as Ny.
  apply (leb_key Nx Ny) in Hxy. apply (leb_key Ny Nx) in Hyx.
  apply Prim2SF_inj. unfold nonneg in Hx, Hy.
  destruct (Prim2SF x) as [sx|sx| |sx mx ex], (Prim2SF y) as [sy|sy| |sy my ey];
    cbn in Hx, Hy; subst; try contradiction; cbn in Hxy, Hyx;
    try reflexivity; try lia.
  assert (ex = ey) by lia. assert (Zpos mx = Zpos my) as [= ->] by lia.
  now subst.
Qed.

Lemma nonneg_infinity : nonneg infinity.
Proof. reflexivity. Qed.

Lemma nonneg_or_nan_number x : nonneg_or_nan x -> number x -> nonneg x.
Proof.
  intros [H|H] Hn; [|exact H]. apply number_spec in Hn. contradiction.
Qed.

Lemma SFmul_square_class pr em x :
  SFmul pr em x x = S754_nan \/ sf_signed false (SFmul pr em x x).
Proof.
  destruct x as [s|s| |s m e]; try (now left);
    right; now apply SFmul_square_signed.
Qed.

Lemma SFadd_class pr em x y :
  x = S754_nan \/ sf_signed false x ->
  y = S754_nan \/ sf_signed false y ->
  SFadd pr em x y = S754_nan \/ sf_signed false (SFadd pr em x y).
Proof.
  intros [->|Hx] [->|Hy].
  - now left.
  - now left.
  - left. now destruct x.
  - right. now apply SFadd_signed.
Qed.

Lemma SFsqrt_class pr em x :
  x = S754_nan \/ sf_signed false x ->
  SFsqrt pr em x = S754_nan \/ sf_signed false (SFsqrt pr em x).
Proof.
  intros [->|Hx]; [now left | right; now apply SFsqrt_signed].
Qed.

Lemma nonneg_or_nan_add_square acc v :
  nonneg_or_nan acc -> nonneg_or_nan (acc + v * v).
Proof.
  unfold nonneg_or_nan, nonneg. rewrite add_spec, mul_spec. intros Ha.
  apply SFadd_class; [exact Ha | apply SFmul_square_class].
Qed.

Lemma nonneg_or_nan_sqrt x : nonneg_or_nan x -> nonneg_or_nan (sqrt x).
Proof.
  unfold nonneg_or_nan, nonneg. rewrite sqrt_spec. apply SFsqrt_class.
Qed.

(** Whatever the components, a norm is NaN or a number of positive sign. *)
Lemma np_linalg_norm_class x : nonneg_or_nan (np_linalg_norm x).
Proof.
  unfold np_linalg_norm, np_dot_self. apply nonneg_or_nan_sqrt.
  assert (H : nonneg_or_nan 0) by (right; reflexivity).
  revert H. generalize 0. induction x as [|v x IH]; intros acc H; cbn; auto.
  apply IH. now apply nonneg_or_nan_add_square.
Qed.

(** A float that is NaN or of positive sign is not below a float that is
    at most zero. *)
Lemma not_below_nonpositive d t :
  nonneg_or_nan d -> (t <=? 0) = true -> (d <? t) = false.
Proof.
  intros Hd Ht. destruct (d <? t) eqn:E; [|reflexivity].
  destruct (ltb_number E) as [Nd _].
  pose proof (nonneg_leb d (nonneg_or_nan_number Hd Nd)) as H0.
  pose proof (ltb_leb_trans E Ht) as H1.
  pose proof (ltb_leb_trans H1 H0) as H2.
  now rewrite ltb_irrefl in H2.
Qed.

(** * Further properties: when a call fails *)

Lemma distance_Ok_iff q e :
  (exists d, distance q e = Ok d)
  <-> broadcastable (List.length q) (List.length e) = true.
Proof.
  unfold distance, np_sub, broadcastable.
  destruct (Nat.eqb (List.length q) (List.length e)) eqn:E; cbn.
  - split; eauto.
  - destruct q as [|x [|x' q]], e as [|y [|y' e]]; cbn in *;
      split; eauto; try discriminate; intros [d Hd]; discriminate.
Qed.

Lemma distance_Raise_iff q e :
  (exists err, distance q e = Raise err)
  <-> broadcastable (List.length q) (List.length e) = false.
Proof.
  pose proof (distance_Ok_iff q e) as [H1 H2].
  destruct (distance q e) as [d|err];
    destruct (broadcastable (List.length q) (List.length e)).
  - split; [intros [err Herr]|]; discriminate.
  - assert (false = true) by eauto. discriminate.
  - destruct (H2 eq_refl) as [d Hd]. discriminate.
  - split; eauto.
Qed.

Lemma gallery_raise_iff q g :
  (exists err, comprehension (min_distance q) g = Raise err)
  <-> exists c e, In c g /\ In e (embeddings c)
                  /\ broadcastable (List.length q) (List.length e) = false.
Proof.
  split.
  - intros [err Herr].
    destruct (comprehension_raise_inv _ _ Herr) as (c & Hc & Hmin).
    destruct (min_distance_raise_inv _ _ Hmin) as (e & He & Hd).
    exists c, e. repeat split; auto. apply distance_Raise_iff. eauto.
  - intros (c & e & Hc & He & Hb).
    apply distance_Raise_iff in Hb. destruct Hb as [err Herr].
    destruct (min_distance_raise q c e He Herr) as [err' Herr'].
    exact (comprehension_raise (min_distance q) g c Hc Herr').
Qed.

(** X1.  [match_faces] fails exactly when the length of some reference
    embedding of the gallery differs from the length of the query while
    neither of the two is one; a failed call carries neither a match nor a
    distance list. *)
Theorem match_faces_fails_iff (request : MatchFacesRequest) :
  (mf_success (match_faces request) = false
   <-> exists c e,
         In c (candidate_embeddings request) /\ In e (embeddings c)
         /\ broadcastable (List.length (query_embedding request))
              (List.length e) = false)
  /\ (mf_success (match_faces request) = false ->
      mf_match (match_faces request) = None
      /\ mf_all_distances (match_faces request) = None).
Proof.
  pose proof (gallery_raise_iff (query_embedding request)
                (candidate_embeddings request)) as Hiff.
  unfold match_faces.
  destruct (match_loop request) as [st|err] eqn:Hloop.
  - destruct (match_respond_success request st) as [Hs _]. rewrite Hs.
    split; [split|]; try discriminate.
    intros H. apply Hiff in H. destruct H as [err Herr].
    apply match_loop_raise in Herr. congruence.
  - cbn. split; [split|]; auto. intros _.
    apply Hiff. exists err. now apply match_loop_raise.
Qed.

(** X2.  [batch_match] fails exactly when the length of some reference
    embedding differs from the length of the embedding of some detected
    face while neither of the two is one; in particular a batch without
    faces succeeds whatever the gallery. *)
Theorem batch_match_fails_iff (request : BatchMatchRequest) :
  bm_success (batch_match request) = false
  <-> exists face c e,
        In face (detected_faces request)
        /\ In c (bm_candidate_embeddings request) /\ In e (embeddings c)
        /\ broadcastable (List.length (embedding face)) (List.length e) = false.
Proof.
  unfold batch_match.
  destruct (batch_loop request) as [ms|err] eqn:Hloop; cbn; split;
    try discriminate; auto.
  - intros (face & c & e & Hf & Hc & He & Hb).
    assert (Hr : exists err, batch_inner_loop request (embedding face) = Raise err).
    { destruct (proj2 (gallery_raise_iff (embedding face)
                         (bm_candidate_embeddings request))) as [err Herr];
        [eauto|].
      exists err. now apply batch_inner_loop_raise. }
    destruct Hr as [err Herr].
    destruct (batch_loop_raise request _ _ 0 [] Hf Herr) as [err' Herr'].
    unfold batch_loop, enumerate in Hloop. congruence.
  - intros _. unfold batch_loop, enumerate in Hloop.
    destruct (batch_loop_raise_inv _ _ _ _ Hloop) as (face & Hf & Hin).
    apply batch_inner_loop_raise in Hin.
    destruct (proj1 (gallery_raise_iff (embedding face)
                       (bm_candidate_embeddings request)))
      as (c & e & Hc & He & Hb); [eauto|].
    exists face, c, e. auto.
Qed.

Lemma zip_sub_repeat_l x (b : Embedding) :
  zip_sub (repeat x (List.length b)) b = map (fun y => x - y) b.
Proof. induction b as [|y b IH]; cbn; [reflexivity | now rewrite IH]. Qed.

Lemma zip_sub_repeat_r y (a : Embedding) :
  zip_sub a (repeat y (List.length a)) = map (fun x => x - y) a.
Proof. induction a as [|x a IH]; cbn; [reflexivity | now rewrite IH]. Qed.

(** X3.  An embedding of length one is matched as the embedding that
    repeats its component to the length of the other: this is what the
    subtraction does instead of raising. *)
Theorem distance_broadcasts_length_one (x : float) (e : Embedding) :
  distance [x] e = distance (repeat x (List.length e)) e
  /\ distance e [x] = distance e (repeat x (List.length e)).
Proof.
  unfold distance. split.
  - rewrite (np_sub_same_length (repeat x (List.length e)) e)
      by apply repeat_length.
    rewrite zip_sub_repeat_l. unfold np_sub.
    destruct e as [|y [|y' e]]; reflexivity.
  - rewrite (np_sub_same_length e (repeat x (List.length e)))
      by (now rewrite repeat_length).
    rewrite zip_sub_repeat_r. unfold np_sub.
    destruct e as [|y [|y' e]]; reflexivity.
Qed.

(** * Further properties: the response of [match_faces] *)

Lemma comprehension_Ok_inv (A B : Type) (f : A -> result B) xs : forall ys,
  comprehension f xs = Ok ys -> Forall2 (fun x y => f x = Ok y) xs ys.
Proof.
  induction xs as [|x xs IH]; cbn; intros ys.
  - intros [= <-]. constructor.
  - destruct (f x) as [y|e] eqn:E; cbn; [|discriminate].
    destruct (comprehension f xs) as [ys'|e]; cbn; [|discriminate].
    intros [= <-]. constructor; auto.
Qed.

(** A representative distance that evaluates is NaN or a number of
    positive sign. *)
Lemma min_distance_class q c d : min_distance q c = Ok d -> nonneg_or_nan d.
Proof.
  unfold min_distance.
  destruct (comprehension (distance q) (embeddings c)) as [ds|e] eqn:E; cbn;
    [|discriminate].
  intros [= <-]. apply comprehension_Ok_inv in E.
  destruct ds as [|d0 ds]; [right; exact nonneg_infinity|].
  destruct (@Forall2_Ok_In_r _ _ (distance q) _ _ _ E (py_min_In ds d0))
    as (e & _ & He).
  unfold distance in He. destruct (np_sub q e) as [diff|err]; cbn in He;
    [|discriminate].
  injection He as He. cbn [min_or_inf]. rewrite <- He.
  apply np_linalg_norm_class.
Qed.

(** What a loop of [match_faces] that did not raise has computed. *)
Lemma match_loop_Ok_inv request st :
  match_loop request = Ok st ->
  let q := query_embedding request in
  let g := candidate_embeddings request in
  (forall c, In c g -> min_distance q c = Ok (representative q c))
  /\ (best_match st, best_distance st)
     = select student_id (representative q) (None, infinity) g
  /\ all_distances st
     = if return_all_distances request
       then map (fun c => {| di_student_id := student_id c;
                             di_min_distance := representative q c |}) g
       else [].
Proof.
  intros Hloop q g.
  assert (Hall : forall c, In c g -> exists d, min_distance q c = Ok d)
    by exact (for_each_Ok_total _ _ _ _ Hloop).
  destruct (match_loop_ok request Hall) as (st' & Hloop' & Hsel & Hd).
  rewrite Hloop in Hloop'. injection Hloop' as <-.
  repeat split; auto.
  intros c Hc. destruct (Hall c Hc) as [d Hd']. unfold representative.
  now rewrite Hd'.
Qed.

Lemma match_faces_Ok_inv request :
  mf_success (match_faces request) = true ->
  exists st, match_loop request = Ok st
             /\ match_faces request = match_respond request st.
Proof.
  unfold match_faces. destruct (match_loop request) as [st|e]; [eauto|].
  discriminate.
Qed.

(** X4.  A successful call with the distance list requested lists every
    identity of the gallery once, in gallery order, with its
    representative distance; without the request there is no list. *)
Theorem match_faces_distance_list (request : MatchFacesRequest) :
  let q := query_embedding request in
  let g := candidate_embeddings request in
  mf_success (match_faces request) = true ->
  (forall c, In c g -> min_distance q c = Ok (representative q c))
  /\ mf_all_distances (match_faces request)
     = if return_all_distances request
       then Some (map (fun c => {| di_student_id := student_id c;
                                   di_min_distance := representative q c |}) g)
       else None.
Proof.
  intros q g Hs. destruct (match_faces_Ok_inv request Hs) as (st & Hloop & ->).
  destruct (match_loop_Ok_inv request Hloop) as (Hrep & _ & Hall).
  split; [exact Hrep|].
  unfold match_respond.
  destruct (best_distance st <? threshold request); cbn; rewrite Hall;
    destruct (return_all_distances request); reflexivity.
Qed.

Lemma match_faces_distance_list_witness :
  mf_all_distances (match_faces (with_flag (spec_request [5; 5]) true))
  = Some [ {| di_student_id := "S1"; di_min_distance := sqrt 50 |};
           {| di_student_id := "S2"; di_min_distance := sqrt 50 |} ].
Proof.
  destruct (match_faces_distance_list (with_flag (spec_request [5; 5]) true))
    as [_ H]; [reflexivity|].
  rewrite H. vm_compute. reflexivity.
Defined.

Lemma match_respond_best request request' st st' :
  best_match st = best_match st' ->
  best_distance st = best_distance st' ->
  threshold request = threshold request' ->
  mf_match (match_respond request st) = mf_match (match_respond request' st').
Proof.
  intros Hm Hd Ht. unfold match_respond. rewrite Hm, Hd, Ht.
  destruct (best_distance st' <? threshold request'); reflexivity.
Qed.

(** X5.  Requesting the distance list changes nothing else: success, match
    and error are those of the call without the request. *)
Theorem match_faces_flag_independent (request : MatchFacesRequest)
  (flag : bool) :
  mf_success (match_faces (with_flag request flag))
  = mf_success (match_faces request)
  /\ mf_match (match_faces (with_flag request flag))
     = mf_match (match_faces request)
  /\ mf_error (match_faces (with_flag request flag))
     = mf_error (match_faces request).
Proof.
  unfold match_faces.
  destruct (match_loop request) as [st|e] eqn:Hloop.
  - destruct (match_loop_Ok_inv request Hloop) as (Hrep & Hsel & _).
    destruct (match_loop_ok (with_flag request flag)) as (st' & Hloop' & Hsel' & _).
    { intros c Hc. eexists. apply (Hrep c Hc). }
    rewrite Hloop'. cbn [with_flag query_embedding candidate_embeddings] in Hsel'.
    rewrite <- Hsel in Hsel'. injection Hsel' as Hm Hd.
    destruct (match_respond_success request st) as [-> ->].
    destruct (match_respond_success (with_flag request flag) st') as [-> ->].
    repeat split. now apply match_respond_best.
  - apply match_loop_raise in Hloop.
    apply (match_loop_raise (with_flag request flag)) in Hloop.
    rewrite Hloop. repeat split.
Qed.

(** X6.  A reported match is well formed: its distance is a number, at
    least zero and below infinity; with the status ["confident"] the
    distance is below the threshold, the confidence is [1 - distance] and
    the identity is one of the gallery whose representative distance is the
    distance reported; with the status ["no_match"] the distance is not below
    the threshold, the confidence is [0] and no identity is reported. *)
Theorem match_result_well_formed (request : MatchFacesRequest)
  (r : MatchResult) :
  let q := query_embedding request in
  let g := candidate_embeddings request in
  mf_match (match_faces request) = Some r ->
  (0 <=? mr_distance r) = true
  /\ (mr_distance r <? infinity) = true
  /\ ((mr_status r = "confident"%string
       /\ (mr_distance r <? threshold request) = true
       /\ mr_confidence r = 1 - mr_distance r
       /\ exists c, In c g
                    /\ mr_student_id r = Some (student_id c)
                    /\ min_distance q c = Ok (mr_distance r))
      \/ (mr_status r = "no_match"%string
          /\ (mr_distance r <? threshold request) = false
          /\ mr_confidence r = 0
          /\ mr_student_id r = None)).
Proof.
  intros q g Hr. unfold match_faces in Hr.
  destruct (match_loop request) as [st|e] eqn:Hloop; [|discriminate].
  destruct (match_loop_Ok_inv request Hloop) as (Hrep & Hsel & _).
  fold q g in Hrep, Hsel.
  destruct (best_distance st <? infinity) eqn:Hinf;
    [|now rewrite match_respond_no_match in Hr].
  rewrite match_respond_match in Hr by exact Hinf. injection Hr as <-.
  cbn [mr_distance mr_status mr_confidence mr_student_id].
  destruct (best_match st) as [id|] eqn:Hbm.
  2:{ symmetry in Hsel.
      destruct (select_spec student_id (representative q) g None
                  (bd0 := infinity) eq_refl)
        as [[Hr _] | (xs1 & c & xs2 & _ & Hr & _)];
        rewrite Hr in Hsel; [|discriminate].
      injection Hsel as E. rewrite <- E in Hinf.
      now rewrite ltb_irrefl in Hinf. }
  symmetry in Hsel.
  destruct (select_Some student_id (representative q) g Hsel)
    as (c & Hc & Hname & Hkey & _).
  assert (Hmin : min_distance q c = Ok (best_distance st))
    by (rewrite <- Hkey; now apply Hrep).
  split; [|split; [exact Hinf|]].
  - apply nonneg_leb, nonneg_or_nan_number.
    + exact (min_distance_class _ _ Hmin).
    + exact (proj1 (ltb_number Hinf)).
  - destruct (best_distance st <? threshold request); [left | right];
      repeat split.
    exists c. subst id. auto.
Qed.

Lemma match_result_well_formed_witness :
  exists r, mf_match (match_faces (spec_request [0; 0])) = Some r
            /\ (0 <=? mr_distance r) = true.
Proof.
  eexists. split; [vm_compute; reflexivity|].
  apply (match_result_well_formed (spec_request [0; 0])).
  vm_compute. reflexivity.
Defined.

(** * Further properties: the results of [batch_match] *)

Lemma batch_inner_loop_Ok_inv request q st :
  batch_inner_loop request q = Ok st ->
  (forall c, In c (bm_candidate_embeddings request) ->
             min_distance q c = Ok (representative q c))
  /\ (b_best_match st, b_best_distance st)
     = select student_id (representative q) (None, infinity)
         (bm_candidate_embeddings request).
Proof.
  intros Hloop.
  assert (Hall : forall c, In c (bm_candidate_embeddings request) ->
                           exists d, min_distance q c = Ok d)
    by exact (for_each_Ok_total _ _ _ _ Hloop).
  destruct (batch_inner_loop_ok request q Hall) as (st' & Hloop' & Hsel).
  rewrite Hloop in Hloop'. injection Hloop' as <-. split; auto.
  intros c Hc. destruct (Hall c Hc) as [d Hd]. unfold representative.
  now rewrite Hd.
Qed.

(** What a batch that did not fail has computed: one result per face, each
    from the inner loop of that face. *)
Lemma batch_match_Ok_inv request ms :
  bm_matches (batch_match request) = Some ms ->
  List.length ms = List.length (detected_faces request)
  /\ (forall k m,
        nth_error ms k = Some m ->
        exists face st,
          nth_error (detected_faces request) k = Some face
          /\ batch_inner_loop request (embedding face) = Ok st
          /\ m = batch_result request k st)
  /\ (forall face, In face (detected_faces request) ->
        exists st, batch_inner_loop request (embedding face) = Ok st).
Proof.
  intros Hms. unfold batch_match in Hms.
  destruct (batch_loop request) as [ms'|e] eqn:Hloop; [|discriminate].
  injection Hms as ->. unfold batch_loop, enumerate in Hloop.
  assert (Hall : forall face, In face (detected_faces request) ->
            exists st, batch_inner_loop request (embedding face) = Ok st).
  { intros face Hf.
    destruct (batch_inner_loop request (embedding face)) as [st|e] eqn:E; [eauto|].
    destruct (batch_loop_raise request _ _ 0 [] Hf E) as [e' He']. congruence. }
  rewrite (batch_loop_ok request _ 0 [] Hall) in Hloop.
  injection Hloop as <-. cbn [app]. split; [|split; [|exact Hall]].
  - now rewrite length_map, enumerate_from_length.
  - intros k m. rewrite nth_error_map, enumerate_from_nth_error.
    destruct (nth_error (detected_faces request) k) as [face|] eqn:Hk;
      [|discriminate].
    cbn. intros [= <-].
    destruct (Hall face (nth_error_In _ _ Hk)) as [st Hst].
    exists face, st. unfold value. rewrite Hst. auto.
Qed.

(** The best distance of a loop over candidates whose distances evaluate is
    a number: infinity, or the representative distance of a candidate of
    the gallery, below infinity. *)
Lemma select_representative q g bm bd :
  (forall c, In c g -> min_distance q c = Ok (representative q c)) ->
  (bm, bd) = select student_id (representative q) (None, infinity) g ->
  (bm = None /\ bd = infinity)
  \/ (exists c, In c g /\ bm = Some (student_id c)
                /\ min_distance q c = Ok bd /\ (bd <? infinity) = true
                /\ nonneg bd).
Proof.
  intros Hrep Hsel. symmetry in Hsel.
  destruct (select_spec student_id (representative q) g None
              (bd0 := infinity) eq_refl)
    as [[Hr _] | (xs1 & c & xs2 & Hg & Hr & Hlt & _)];
    rewrite Hr in Hsel; injection Hsel as <- <-; [now left|].
  right. assert (Hc : In c g) by (rewrite Hg; apply in_elt).
  exists c. repeat split; auto.
  apply nonneg_or_nan_number.
  - exact (min_distance_class _ _ (Hrep c Hc)).
  - exact (proj1 (ltb_number Hlt)).
Qed.

(** X7.  The results of a batch that succeeds are well formed: one result
    per detected face, the result at position [k] with [face_index = k] and
    a distance that is a number, at least zero; with the status
    ["present"] the distance is below the threshold and the identity is one
    of the gallery whose representative distance for that face is the
    distance reported; with the status ["unknown"] the distance is not below
    the threshold and no identity is reported. *)
Theorem batch_results_well_formed (request : BatchMatchRequest)
  (ms : list BatchMatchResult) :
  bm_matches (batch_match request) = Some ms ->
  List.length ms = List.length (detected_faces request)
  /\ forall k m,
       nth_error ms k = Some m ->
       exists face,
         nth_error (detected_faces request) k = Some face
         /\ face_index m = k
         /\ (0 <=? br_distance m) = true
         /\ ((br_status m = "present"%string
              /\ (br_distance m <? confident_threshold request) = true
              /\ exists c, In c (bm_candidate_embeddings request)
                           /\ br_student_id m = Some (student_id c)
                           /\ min_distance (embedding face) c
                              = Ok (br_distance m))
             \/ (br_status m = "unknown"%string
                 /\ (br_distance m <? confident_threshold request) = false
                 /\ br_student_id m = None)).
Proof.
  intros Hms. destruct (batch_match_Ok_inv request Hms) as (Hlen & Hnth & _).
  split; [exact Hlen|]. intros k m Hm.
  destruct (Hnth k m Hm) as (face & st & Hk & Hst & ->).
  exists face. split; [exact Hk|].
  destruct (batch_inner_loop_Ok_inv request _ Hst) as [Hrep Hsel].
  unfold batch_result.
  destruct (select_representative _ _ Hrep Hsel)
    as [[Hbm Hbd] | (c & Hc & Hbm & Hmin & Hlt & Hnn)].
  - rewrite Hbd, infinity_ltb. cbn.
    split; [reflexivity|]. split; [reflexivity|].
    right. repeat split. apply infinity_ltb.
  - destruct (b_best_distance st <? confident_threshold request) eqn:Ht;
      cbn; split; try reflexivity;
      (split; [now apply nonneg_leb|]).
    + left. repeat split; auto. exists c. auto.
    + right. repeat split; auto.
Qed.

Lemma batch_results_well_formed_witness :
  exists ms, bm_matches (batch_match spec_batch) = Some ms
             /\ List.length ms = 3%nat.
Proof.
  eexists. split; [vm_compute; reflexivity|].
  apply (batch_results_well_formed spec_batch). vm_compute. reflexivity.
Defined.

(** * Further properties: the threshold *)

Lemma match_loop_with_threshold request t :
  match_loop (with_threshold request t) = match_loop request.
Proof. reflexivity. Qed.

Lemma batch_inner_loop_with_threshold request t q :
  batch_inner_loop (with_confident_threshold request t) q
  = batch_inner_loop request q.
Proof. reflexivity. Qed.

(** X8.  Raising the threshold keeps what matched: with [t1 <= t2], a match
    that is ["confident"] at threshold [t1] is returned unchanged (identity,
    distance, confidence) at threshold [t2], and a batch result that is
    ["present"] at [t1] is returned unchanged, at the same position, at
    [t2]. *)
Theorem raising_threshold_keeps_matches (t1 t2 : float) :
  (t1 <=? t2) = true ->
  (forall request r,
     threshold request = t1 ->
     mf_match (match_faces request) = Some r ->
     mr_status r = "confident"%string ->
     mf_match (match_faces (with_threshold request t2)) = Some r)
  /\ (forall request ms k m,
        confident_threshold request = t1 ->
        bm_matches (batch_match request) = Some ms ->
        nth_error ms k = Some m ->
        br_status m = "present"%string ->
        exists ms',
          bm_matches (batch_match (with_confident_threshold request t2))
          = Some ms'
          /\ nth_error ms' k = Some m).
Proof.
  intros Hle. split.
  - intros request r Ht Hr Hst.
    unfold match_faces in *. rewrite match_loop_with_threshold.
    destruct (match_loop request) as [st|e]; [|discriminate].
    destruct (best_distance st <? infinity) eqn:Hinf;
      [|now rewrite match_respond_no_match in Hr].
    rewrite match_respond_match in * by exact Hinf.
    injection Hr as <-. cbn [mr_status] in Hst. cbn [with_threshold threshold].
    destruct (best_distance st <? threshold request) eqn:Hlt; [|discriminate].
    rewrite Ht in Hlt. now rewrite (ltb_leb_trans Hlt Hle).
  - intros request ms k m Ht Hms Hm Hst.
    destruct (batch_match_Ok_inv request Hms) as (Hlen & Hnth & Hall).
    destruct (Hnth k m Hm) as (face & st & Hk & Hloop & ->).
    eexists. split.
    + unfold batch_match, batch_loop, enumerate.
      change (detected_faces (with_confident_threshold request t2))
        with (detected_faces request).
      rewrite (batch_loop_ok (with_confident_threshold request t2) _ 0 [] Hall).
      reflexivity.
    + cbn [app].
      rewrite nth_error_map, enumerate_from_nth_error, Hk. cbn.
      unfold value. rewrite batch_inner_loop_with_threshold, Hloop.
      f_equal. unfold batch_result in *.
      cbn [with_confident_threshold confident_threshold].
      destruct (b_best_distance st <? confident_threshold request) eqn:Hlt;
        [|discriminate].
      rewrite Ht in Hlt. now rewrite (ltb_leb_trans Hlt Hle).
Qed.

Lemma raising_threshold_keeps_matches_witness :
  mf_match (match_faces (with_threshold (spec_request [0; 0]) 1))
  = Some {| mr_student_id := Some "S1"%string;
            mr_distance := 0;
            mr_confidence := 1;
            mr_status := "confident" |}.
Proof.
  destruct (raising_threshold_keeps_matches (t1 := 0.6) (t2 := 1) eq_refl)
    as [H _].
  apply (H (spec_request [0; 0])); reflexivity.
Defined.

(** X9.  The comparison with the threshold is strict and no distance is
    below zero: with a threshold that is at most zero nobody is reported,
    whatever the embeddings; every match has the status ["no_match"] and
    every batch result the status ["unknown"]. *)
Theorem nonpositive_threshold_reports_nobody (t : float) :
  (t <=? 0) = true ->
  (forall request r,
     threshold request = t ->
     mf_match (match_faces request) = Some r ->
     mr_status r = "no_match"%string
     /\ mr_student_id r = None
     /\ mr_confidence r = 0)
  /\ (forall request ms m,
        confident_threshold request = t ->
        bm_matches (batch_match request) = Some ms ->
        In m ms ->
        br_status m = "unknown"%string /\ br_student_id m = None).
Proof.
  intros Ht. split.
  - intros request r Hthr Hr. unfold match_faces in Hr.
    destruct (match_loop request) as [st|e] eqn:Hloop; [|discriminate].
    destruct (match_loop_Ok_inv request Hloop) as (Hrep & Hsel & _).
    destruct (best_distance st <? infinity) eqn:Hinf;
      [|now rewrite match_respond_no_match in Hr].
    rewrite match_respond_match in Hr by exact Hinf. injection Hr as <-.
    cbn [mr_status mr_student_id mr_confidence].
    assert (Hlt : (best_distance st <? threshold request) = false).
    { rewrite Hthr. apply not_below_nonpositive; [|exact Ht].
      destruct (select_representative _ _ Hrep Hsel)
        as [[_ ->] | (c & _ & _ & _ & _ & Hnn)]; right;
        [exact nonneg_infinity | exact Hnn]. }
    rewrite Hlt. repeat split.
  - intros request ms m Hthr Hms Hm.
    destruct (batch_match_Ok_inv request Hms) as (_ & Hnth & _).
    apply In_nth_error in Hm. destruct Hm as [k Hk].
    destruct (Hnth k m Hk) as (face & st & _ & Hloop & ->).
    destruct (batch_inner_loop_Ok_inv request _ Hloop) as [Hrep Hsel].
    unfold batch_result.
    assert (Hlt : (b_best_distance st <? confident_threshold request) = false).
    { rewrite Hthr. apply not_below_nonpositive; [|exact Ht].
      destruct (select_representative _ _ Hrep Hsel)
        as [[_ ->] | (c & _ & _ & _ & _ & Hnn)]; right;
        [exact nonneg_infinity | exact Hnn]. }
    rewrite Hlt. split; reflexivity.
Qed.

Lemma nonpositive_threshold_reports_nobody_witness :
  mf_match (match_faces (with_threshold (spec_request [0; 0]) 0))
  = Some {| mr_student_id := None;
            mr_distance := 0;
            mr_confidence := 0;
            mr_status := "no_match" |}.
Proof.
  destruct (nonpositive_threshold_reports_nobody (t := 0) eq_refl) as [H _].
  assert (Hr : exists r,
             mf_match (match_faces (with_threshold (spec_request [0; 0]) 0))
             = Some r /\ mr_distance r = 0)
    by (eexists; split; vm_compute; reflexivity).
  destruct Hr as (r & Hr & Hd). rewrite Hr.
  destruct (H (with_threshold (spec_request [0; 0]) 0) r eq_refl Hr)
    as (Hs & Hi & Hc).
  destruct r; cbn in *. now subst.
Defined.

(** * Further properties: batches of faces *)

Lemma enumerate_from_app (A : Type) (xs ys : list A) : forall i,
  enumerate_from i (xs ++ ys)
  = enumerate_from i xs ++ enumerate_from (i + List.length xs) ys.
Proof.
  induction xs as [|x xs IH]; intros i; cbn.
  - now rewrite Nat.add_0_r.
  - rewrite IH. now rewrite Nat.add_succ_r.
Qed.

Lemma batch_results_shift request n faces : forall i,
  map (fun item =>
         batch_result request (fst item)
           (value (batch_inner_loop request) batch_init (embedding (snd item))))
    (enumerate_from (n + i) faces)
  = map (shift_index n)
      (map (fun item =>
              batch_result request (fst item)
                (value (batch_inner_loop request) batch_init
                   (embedding (snd item))))
         (enumerate_from i faces)).
Proof.
  induction faces as [|face faces IH]; intros i; cbn; [reflexivity|].
  rewrite <- Nat.add_succ_r, IH. f_equal.
  unfold batch_result, shift_index.
  destruct (_ <? confident_threshold request); reflexivity.
Qed.

(** X10.  The faces of a batch are matched independently: when the batch
    over [faces1 ++ faces2] succeeds, so do the batches over [faces1] and
    over [faces2], and its results are the results of the first followed by
    the results of the second with their indices moved by the length of
    [faces1]. *)
Theorem batch_match_app (request : BatchMatchRequest)
  (faces1 faces2 : list DetectedFace) (ms : list BatchMatchResult) :
  detected_faces request = faces1 ++ faces2 ->
  bm_matches (batch_match request) = Some ms ->
  exists ms1 ms2,
    bm_matches (batch_match (with_faces request faces1)) = Some ms1
    /\ bm_matches (batch_match (with_faces request faces2)) = Some ms2
    /\ ms = ms1 ++ map (shift_index (List.length faces1)) ms2.
Proof.
  intros Hfaces Hms.
  destruct (batch_match_Ok_inv request Hms) as (_ & _ & Hall).
  rewrite Hfaces in Hall.
  assert (H1 : forall face, In face faces1 ->
             exists st, batch_inner_loop (with_faces request faces1)
                          (embedding face) = Ok st)
    by (intros face Hf; apply Hall, in_or_app; now left).
  assert (H2 : forall face, In face faces2 ->
             exists st, batch_inner_loop (with_faces request faces2)
                          (embedding face) = Ok st)
    by (intros face Hf; apply Hall, in_or_app; now right).
  unfold batch_match, batch_loop, enumerate in *.
  cbn [with_faces detected_faces].
  rewrite (batch_loop_ok (with_faces request faces1) _ 0 [] H1).
  rewrite (batch_loop_ok (with_faces request faces2) _ 0 [] H2).
  rewrite Hfaces in Hms.
  rewrite (batch_loop_ok request _ 0 [] Hall) in Hms.
  injection Hms as <-. eexists _, _. split; [reflexivity|].
  split; [reflexivity|]. cbn [app].
  rewrite enumerate_from_app, map_app. f_equal.
  rewrite <- (batch_results_shift (with_faces request faces2)
                (List.length faces1) faces2 0).
  now rewrite Nat.add_0_r.
Qed.

Lemma batch_match_app_witness :
  exists ms1 ms2,
    bm_matches (batch_match (with_faces spec_batch [ {| embedding := [0; 0] |} ]))
    = Some ms1
    /\ bm_matches
         (batch_match (with_faces spec_batch
                         [ {| embedding := [5; 5] |};
                           {| embedding := [10; 10] |} ]))
       = Some ms2
    /\ map face_index (ms1 ++ map (shift_index 1) ms2) = [0; 1; 2]%nat.
Proof.
  destruct (batch_match_app spec_batch
              [ {| embedding := [0; 0] |} ]
              [ {| embedding := [5; 5] |}; {| embedding := [10; 10] |} ]
              (ms := [ {| face_index := 0; br_student_id := Some "S1"%string;
                          br_distance := 0; br_status := "present" |};
                       {| face_index := 1; br_student_id := None;
                          br_distance := sqrt 50; br_status := "unknown" |};
                       {| face_index := 2; br_student_id := Some "S2"%string;
                          br_distance := 0; br_status := "present" |} ]))
    as (ms1 & ms2 & H1 & H2 & H).
  - reflexivity.
  - vm_compute. reflexivity.
  - exists ms1, ms2. cbn [List.length] in H. rewrite <- H. auto.
Defined.

(** * Further properties: order of the gallery and of the embeddings *)

Lemma zip_sub_number (a : Embedding) : forall b : Embedding,
  Forall finite a -> Forall finite b -> Forall number (zip_sub a b).
Proof.
  induction a as [|x a IH]; intros [|y b] Ha Hb; cbn; try constructor.
  - inversion_clear Ha. inversion_clear Hb. now apply sub_number.
  - inversion_clear Ha. inversion_clear Hb. auto.
Qed.

Lemma map_sub_l_number x (b : Embedding) :
  finite x -> Forall finite b -> Forall number (map (fun y => x - y) b).
Proof.
  intros Hx Hb. apply Forall_map. eapply Forall_impl; [|exact Hb].
  intros y Hy. now apply sub_number.
Qed.

Lemma map_sub_r_number y (a : Embedding) :
  finite y -> Forall finite a -> Forall number (map (fun x => x - y) a).
Proof.
  intros Hy Ha. apply Forall_map. eapply Forall_impl; [|exact Ha].
  intros x Hx. now apply sub_number.
Qed.

Lemma np_sub_number (a b : Embedding) diff :
  Forall finite a -> Forall finite b ->
  np_sub a b = Ok diff -> Forall number diff.
Proof.
  intros Ha Hb. unfold np_sub.
  destruct (Nat.eqb (List.length a) (List.length b)).
  - intros [= <-]. now apply zip_sub_number.
  - destruct a as [|x [|x' a]].
    + destruct b as [|y [|y' b]]; intros [= <-]. constructor.
    + intros [= <-]. inversion_clear Ha. now apply map_sub_l_number.
    + destruct b as [|y [|y' b]]; intros [= <-].
      inversion_clear Hb.
      now apply (map_sub_r_number (y := y) (a := x :: x' :: a)).
Qed.

Lemma np_linalg_norm_nonneg x : Forall number x -> nonneg (np_linalg_norm x).
Proof.
  intros H. unfold np_linalg_norm, np_dot_self. apply nonneg_sqrt.
  pose proof nonneg_zero as H0. revert H0. generalize 0.
  induction H as [|v x Hv _ IH]; intros acc Hacc; cbn; auto.
  apply IH. now apply nonneg_add_square.
Qed.

(** On finite components a distance that evaluates is a number of positive
    sign, whatever the lengths. *)
Lemma distance_nonneg q e d :
  Forall finite q -> Forall finite e -> distance q e = Ok d -> nonneg d.
Proof.
  intros Hq He. unfold distance.
  destruct (np_sub q e) as [diff|err] eqn:E; cbn; [|discriminate].
  intros [= <-]. apply np_linalg_norm_nonneg. exact (np_sub_number Hq He E).
Qed.

(** The least of a list of numbers of positive sign depends on the items of
    the list only, not on their order. *)
Lemma min_or_inf_same_items ds ds' :
  Forall nonneg ds -> Forall nonneg ds' ->
  (forall x, In x ds <-> In x ds') ->
  min_or_inf ds = min_or_inf ds'.
Proof.
  intros H H' Hiff.
  destruct ds as [|d ds].
  - destruct ds' as [|d' ds']; [reflexivity|].
    destruct (proj2 (Hiff d') (or_introl eq_refl)).
  - destruct ds' as [|d' ds'].
    + destruct (proj1 (Hiff d) (or_introl eq_refl)).
    + assert (Hn : Forall number (d :: ds))
        by (eapply Forall_impl; [|exact H]; apply nonneg_number).
      assert (Hn' : Forall number (d' :: ds'))
        by (eapply Forall_impl; [|exact H']; apply nonneg_number).
      pose proof (min_or_inf_leb Hn) as Hle.
      pose proof (min_or_inf_leb Hn') as Hle'.
      pose proof (min_or_inf_In (ds := d :: ds)) as Hin.
      pose proof (min_or_inf_In (ds := d' :: ds')) as Hin'.
      rewrite Forall_forall in H, H', Hle, Hle'.
      apply nonneg_antisym.
      * apply H, Hin. discriminate.
      * apply H', Hin'. discriminate.
      * apply Hle, Hiff, Hin'. discriminate.
      * apply Hle', Hiff, Hin. discriminate.
Qed.

(** X11.  On finite components the representative distance of an identity
    does not depend on the order of its reference embeddings. *)
Theorem min_distance_embedding_order (q : Embedding)
  (c c' : CandidateEmbeddings) (d : float) :
  Permutation (embeddings c) (embeddings c') ->
  Forall finite q ->
  (forall e, In e (embeddings c) -> Forall finite e) ->
  min_distance q c = Ok d ->
  min_distance q c' = Ok d.
Proof.
  intros Hperm Hq Hfin. unfold min_distance.
  destruct (comprehension (distance q) (embeddings c)) as [ds|err] eqn:E; cbn;
    [|discriminate].
  intros [= <-]. apply comprehension_Ok_inv in E.
  destruct (comprehension_total (distance q) (embeddings c')) as (ds' & E' & HF').
  { intros e He. apply (Permutation_in _ (Permutation_sym Hperm)) in He.
    revert He. clear - E.
    induction E as [|e0 d0 es ds0 H0 _ IH]; [intros []|].
    intros [<-|He]; eauto. }
  rewrite E'. cbn. f_equal. symmetry.
  assert (Hnn : forall es ds0,
             Forall2 (fun e d => distance q e = Ok d) es ds0 ->
             (forall e, In e es -> Forall finite e) -> Forall nonneg ds0).
  { intros es ds0 HF Hes. apply Forall_forall. intros x Hx.
    destruct (@Forall2_Ok_In_r _ _ (distance q) _ _ _ HF Hx) as (e & He & Hd).
    exact (distance_nonneg Hq (Hes e He) Hd). }
  apply min_or_inf_same_items.
  - exact (Hnn _ _ E Hfin).
  - apply (Hnn _ _ HF'). intros e He. apply Hfin.
    exact (Permutation_in _ (Permutation_sym Hperm) He).
  - intros x. split; intros Hx.
    + destruct (@Forall2_Ok_In_r _ _ (distance q) _ _ _ E Hx) as (e & He & Hd).
      apply (Permutation_in _ Hperm) in He.
      exact (@Forall2_Ok_In_l _ _ (distance q) _ _ _ _ HF' He Hd).
    + destruct (@Forall2_Ok_In_r _ _ (distance q) _ _ _ HF' Hx) as (e & He & Hd).
      apply (Permutation_in _ (Permutation_sym Hperm)) in He.
      exact (@Forall2_Ok_In_l _ _ (distance q) _ _ _ _ E He Hd).
Qed.

Lemma min_distance_embedding_order_witness :
  min_distance [0; 0] {| student_id := "S1"; embeddings := [[0; 0.5]; [3; 4]] |}
  = Ok 0.5.
Proof.
  apply (min_distance_embedding_order
           {| student_id := "S1"; embeddings := [[3; 4]; [0; 0.5]] |}
           {| student_id := "S1"; embeddings := [[0; 0.5]; [3; 4]] |}).
  - apply perm_swap.
  - repeat constructor.
  - intros e [<-|[<-|[]]]; repeat constructor.
  - vm_compute. reflexivity.
Defined.

(** The best distance of the selection depends on the items only, not on
    their order, when every key is NaN or a number of positive sign. *)
Lemma select_distance_order (A : Type) (name : A -> string) (key : A -> float)
  xs ys :
  (forall a, In a xs -> nonneg_or_nan (key a)) ->
  Permutation xs ys ->
  snd (select name key (None, infinity) xs)
  = snd (select name key (None, infinity) ys).
Proof.
  intros Hclass Hperm.
  destruct (select_spec name key xs None (bd0 := infinity) eq_refl)
    as [[Hr HF] | (xs1 & c & xs2 & Hxs & Hr & Hc & H1 & H2)].
  - rewrite Hr, (select_none name key (xs := ys)); [reflexivity|].
    apply Forall_forall. intros a Ha. rewrite Forall_forall in HF.
    apply HF. exact (Permutation_in _ (Permutation_sym Hperm) Ha).
  - assert (Hex : forall zs, Permutation xs zs ->
              Exists (fun a => (key a <? infinity) = true) zs).
    { intros zs Hz. apply Exists_exists. exists c. split; [|exact Hc].
      apply (Permutation_in _ Hz). rewrite Hxs. apply in_elt. }
    assert (Hmin : forall zs z1 z z2,
              zs = z1 ++ z :: z2 ->
              Forall (fun a => number (key a) -> (key z <? key a) = true) z1 ->
              Forall (fun a => number (key a) -> (key z <=? key a) = true) z2 ->
              number (key z) ->
              forall a, In a zs -> number (key a) -> (key z <=? key a) = true).
    { intros zs z1 z z2 -> Hz1 Hz2 Hz a Ha Hn.
      rewrite Forall_forall in Hz1, Hz2.
      apply in_app_or in Ha. destruct Ha as [Ha|[<-|Ha]].
      - now apply ltb_leb, Hz1.
      - now apply leb_refl.
      - now apply Hz2. }
    destruct (select_first name key (Hex xs (Permutation_refl xs)))
      as (x1 & cx & x2 & Ex & Sx & Lx & Fx1 & Fx2).
    destruct (select_first name key (Hex ys Hperm))
      as (y1 & cy & y2 & Ey & Sy & Ly & Fy1 & Fy2).
    rewrite Sx, Sy. cbn [snd].
    pose proof (proj1 (ltb_number Lx)) as Nx.
    pose proof (proj1 (ltb_number Ly)) as Ny.
    assert (Ix : In cx xs) by (rewrite Ex; apply in_elt).
    assert (Iy : In cy ys) by (rewrite Ey; apply in_elt).
    apply nonneg_antisym.
    + apply nonneg_or_nan_number; auto.
    + apply nonneg_or_nan_number; auto.
      apply Hclass. exact (Permutation_in _ (Permutation_sym Hperm) Iy).
    + apply (Hmin xs x1 cx x2 Ex Fx1 Fx2 Nx); auto.
      exact (Permutation_in _ (Permutation_sym Hperm) Iy).
    + apply (Hmin ys y1 cy y2 Ey Fy1 Fy2 Ny); auto.
      exact (Permutation_in _ Hperm Ix).
Qed.

(** X12.  The order of the gallery decides ties only: a successful call on
    a gallery given in another order succeeds too, reports a match when
    and only when the first does, and the two matches have the same
    distance, confidence and status.  Either both name nobody, or each
    names an identity of the gallery whose representative distance is the
    distance reported: the two identities named are tied.  When all the
    identities of the gallery at that distance bear one name, the two
    matches are equal. *)
Theorem match_faces_gallery_order (request : MatchFacesRequest)
  (g' : list CandidateEmbeddings) :
  let q := query_embedding request in
  let g := candidate_embeddings request in
  Permutation g g' ->
  mf_success (match_faces request) = true ->
  mf_success (match_faces (with_gallery request g')) = true
  /\ match mf_match (match_faces request),
           mf_match (match_faces (with_gallery request g')) with
     | Some r, Some r' =>
         mr_distance r' = mr_distance r
         /\ mr_confidence r' = mr_confidence r
         /\ mr_status r' = mr_status r
         /\ ((mr_student_id r = None /\ mr_student_id r' = None)
             \/ exists c c',
                  In c g /\ In c' g
                  /\ mr_student_id r = Some (student_id c)
                  /\ mr_student_id r' = Some (student_id c')
                  /\ min_distance q c = Ok (mr_distance r)
                  /\ min_distance q c' = Ok (mr_distance r))
         /\ ((forall c c',
                In c g -> In c' g ->
                min_distance q c = Ok (mr_distance r) ->
                min_distance q c' = Ok (mr_distance r) ->
                student_id c = student_id c') ->
             r' = r)
     | None, None => True
     | _, _ => False
     end.
Proof.
  intros q g Hperm Hs.
  destruct (match_faces_Ok_inv request Hs) as (st & Hloop & ->).
  destruct (match_loop_Ok_inv request Hloop) as (Hrep & Hsel & _).
  fold q g in Hrep, Hsel.
  assert (Hrep' : forall c, In c g' ->
                    min_distance q c = Ok (representative q c)).
  { intros c Hc. apply Hrep.
    exact (Permutation_in _ (Permutation_sym Hperm) Hc). }
  destruct (match_loop_ok (with_gallery request g')) as (st' & Hloop' & Hsel' & _).
  { intros c Hc. eexists. apply (Hrep' c Hc). }
  cbn [with_gallery query_embedding candidate_embeddings] in Hsel'.
  fold q in Hsel'.
  assert (Hbd : best_distance st' = best_distance st).
  { change (best_distance st') with (snd (best_match st', best_distance st')).
    change (best_distance st) with (snd (best_match st, best_distance st)).
    rewrite Hsel, Hsel'. symmetry. apply select_distance_order; [|exact Hperm].
    intros c Hc. exact (min_distance_class _ _ (Hrep c Hc)). }
  assert (E' : match_faces (with_gallery request g')
               = match_respond (with_gallery request g') st')
    by (unfold match_faces; now rewrite Hloop').
  rewrite E'. split; [apply match_respond_success|].
  destruct (best_distance st <? infinity) eqn:Hinf.
  - rewrite !match_respond_match by (rewrite ?Hbd; exact Hinf).
    cbn [mr_distance mr_confidence mr_status mr_student_id with_gallery
           threshold].
    rewrite Hbd.
    assert (Hnames : exists c c',
               In c g /\ In c' g
               /\ best_match st = Some (student_id c)
               /\ best_match st' = Some (student_id c')
               /\ min_distance q c = Ok (best_distance st)
               /\ min_distance q c' = Ok (best_distance st)).
    { destruct (select_representative q g Hrep Hsel)
        as [[_ Hi] | (c & Hc & Hm & Hd & _)];
        [rewrite Hi, ltb_irrefl in Hinf; discriminate|].
      destruct (select_representative q g' Hrep' Hsel')
        as [[_ Hi] | (c' & Hc' & Hm' & Hd' & _)];
        [rewrite Hbd in Hi; rewrite Hi, ltb_irrefl in Hinf; discriminate|].
      exists c, c'. rewrite Hbd in Hd'. repeat split; auto.
      exact (Permutation_in _ (Permutation_sym Hperm) Hc'). }
    destruct Hnames as (c & c' & Hc & Hc' & Hm & Hm' & Hd & Hd').
    destruct (best_distance st <? threshold request).
    + repeat split.
      * right. exists c, c'. repeat split; auto.
      * intros Huniq. rewrite Hm, Hm', (Huniq c c' Hc Hc' Hd Hd').
        reflexivity.
    + repeat split. left. split; reflexivity.
  - rewrite !match_respond_no_match by (rewrite ?Hbd; exact Hinf). exact I.
Qed.

Lemma match_faces_gallery_order_witness :
  exists r, mf_match (match_faces
                        (with_gallery (spec_request [0; 0])
                           [ {| student_id := "S2"; embeddings := [[10; 10]] |};
                             {| student_id := "S1"; embeddings := [[0; 0]] |} ]))
            = Some r
            /\ mr_distance r = 0.
Proof.
  destruct (match_faces_gallery_order (spec_request [0; 0])
              (g' := [ {| student_id := "S2"; embeddings := [[10; 10]] |};
                       {| student_id := "S1"; embeddings := [[0; 0]] |} ]))
    as [_ H].
  - apply perm_swap.
  - reflexivity.
  - destruct (mf_match (match_faces (with_gallery _ _))) as [r'|] eqn:E.
    + exists r'. split; [reflexivity|].
      change (mf_match (match_faces (spec_request [0; 0])))
        with (Some {| mr_student_id := Some "S1"%string;
                      mr_distance := 0;
                      mr_confidence := 1;
                      mr_status := "confident" |}) in H.
      apply H.
    + change (mf_match (match_faces (spec_request [0; 0])))
        with (Some {| mr_student_id := Some "S1"%string;
                      mr_distance := 0;
                      mr_confidence := 1;
                      mr_status := "confident" |}) in H.
      destruct H.
Defined.

(** * Further properties: [encode_face] and [detect_faces] *)

(** Case analysis over what the provider returned or raised and over the
    tests of a handler, in an equation [H] on what the handler computed. *)
Ltac handler_cases H :=
  repeat match type of H with
         | context [match ?x with _ => _ end] => destruct x eqn:?
         | context [if ?b then _ else _] => destruct b eqn:?
         end;
  try discriminate H.

Lemma encode_face_try_Ok (P : Provider) request image_bytes response :
  encode_face_try request image_bytes = Ok response ->
  (ef_success response = true
   /\ (exists enc loc md,
         ef_embedding response = Some enc /\ ef_face_location response = Some loc
         /\ ef_metadata response = Some md)
   /\ ef_error response = None /\ ef_error_code response = None)
  \/ (exists msg code,
        response = encode_failure msg code /\ code <> ERROR_INVALID_IMAGE).
Proof.
  unfold encode_face_try, truediv, bind. intros H.
  handler_cases H; injection H as <-;
    try (right; eexists _, _; split; [reflexivity | discriminate]).
  left; cbn; repeat split; eexists _, _, _; repeat split.
Qed.

(** X13.  Every response of [encode_face] is complete: a success carries an
    embedding, a face location and metadata and neither an error nor an
    error code; a failure carries none of the three and both an error
    message and an error code. *)
Theorem encode_face_response_complete (P : Provider)
  (request : EncodeFaceRequest) :
  let r := encode_face request in
  (ef_success r = true
   /\ (exists enc loc md,
         ef_embedding r = Some enc /\ ef_face_location r = Some loc
         /\ ef_metadata r = Some md)
   /\ ef_error r = None /\ ef_error_code r = None)
  \/ (ef_success r = false
      /\ ef_embedding r = None /\ ef_face_location r = None
      /\ ef_metadata r = None
      /\ exists msg code, ef_error r = Some msg /\ ef_error_code r = Some code).
Proof.
  cbv zeta. unfold encode_face.
  destruct (b64decode (ef_image_base64 request)) as [image_bytes|e];
    [|solve [right; cbn; repeat split; eauto]].
  destruct (encode_face_try request image_bytes) as [response|[msg|msg]] eqn:E;
    try solve [right; cbn; repeat split; eauto].
  destruct (@encode_face_try_Ok P _ _ _ E) as [H | (msg & code & -> & _)];
    [left; exact H | solve [right; cbn; repeat split; eauto]].
Qed.

(** X14.  The code for an invalid image is returned exactly when the
    base64 payload does not decode: a payload that decodes to something
    that is no image, or any later failure, gets another code. *)
Theorem encode_face_invalid_image_iff (P : Provider)
  (request : EncodeFaceRequest) :
  ef_error_code (encode_face request) = Some ERROR_INVALID_IMAGE
  <-> exists e, b64decode (ef_image_base64 request) = Raise e.
Proof.
  unfold encode_face.
  destruct (b64decode (ef_image_base64 request)) as [image_bytes|e].
  - split; [|intros [e He]; discriminate].
    destruct (encode_face_try request image_bytes) as [response|[msg|msg]] eqn:E.
    + destruct (@encode_face_try_Ok P _ _ _ E)
        as [(_ & _ & _ & Hc) | (msg & code & -> & Hc)].
      * rewrite Hc. discriminate.
      * cbn. intros [= ->]. contradiction.
    + cbn. destruct (str_in "No face" msg), (str_in "Multiple" msg),
        (str_in "too small" msg); discriminate.
    + cbn. discriminate.
  - split; eauto.
Qed.

(** X15.  An image in which no face is located: [encode_face] fails with
    the code for no face, while [detect_faces] succeeds with an empty list
    of faces, the count zero and the image dimensions, width first. *)
Theorem no_face_located (P : Provider) (image_bytes : string)
  (image_np : image) :
  image_open image_bytes = Ok image_np ->
  (forall request,
     b64decode (ef_image_base64 request) = Ok image_bytes ->
     face_locations image_np 1 "hog" = Ok [] ->
     encode_face request
     = {| ef_success := false;
          ef_embedding := None;
          ef_face_location := None;
          ef_metadata := None;
          ef_error := Some "No face detected"%string;
          ef_error_code := Some ERROR_NO_FACE |})
  /\ (forall request,
        b64decode (df_image_base64 request) = Ok image_bytes ->
        face_locations image_np 1 (df_model request) = Ok [] ->
        detect_faces request
        = {| df_success := true;
             df_faces := Some [];
             df_count := Some 0%nat;
             df_metadata :=
               Some {| dm_image_dimensions :=
                         [snd (image_shape image_np);
                          fst (image_shape image_np)] |};
             df_error := None |}).
Proof.
  intros Ho. split; intros request Hb Hl.
  - unfold encode_face. rewrite Hb. unfold encode_face_try. rewrite Ho. cbn.
    destruct (image_shape image_np). now rewrite Hl.
  - unfold detect_faces. rewrite Hb. unfold detect_faces_try. rewrite Ho. cbn.
    destruct (image_shape image_np). now rewrite Hl.
Qed.

(** X16.  The size gate of [encode_face] and what it returns past the gate.
    With at least one face located, and either no single-face validation or
    exactly one face: over an image of non-zero area, with the areas of the
    image and of the first face below [2^53] as pixel counts are, when the
    area ratio of the first face is below the minimum the call fails with
    the code for a face too small; otherwise, once the provider returns an
    encoding for that first face alone, the call succeeds with that
    encoding, the location of the first face, its area ratio and the image
    dimensions, width first.  The other faces are ignored.  Whatever the
    areas, when the division of the two areas raises (an image without
    area, a quotient too large for a float) the call fails with the code
    for a processing error and the message of the division. *)
Theorem encode_face_first_face (P : Provider) (request : EncodeFaceRequest)
  (image_bytes : string) (image_np : image) (loc : FaceLocation)
  (others : list FaceLocation) :
  b64decode (ef_image_base64 request) = Ok image_bytes ->
  image_open image_bytes = Ok image_np ->
  face_locations image_np 1 "hog" = Ok (loc :: others) ->
  validate_single request = false \/ others = [] ->
  let h := fst (image_shape image_np) in
  let w := snd (image_shape image_np) in
  let ratio := float_of_Z (face_area loc) / float_of_Z (h * w) in
  ((h * w)%Z <> 0%Z ->
   (Z.abs (h * w) < 2 ^ 53)%Z ->
   (Z.abs (face_area loc) < 2 ^ 53)%Z ->
   ((ratio <? ef_min_face_area_ratio request) = true ->
    encode_face request
    = {| ef_success := false;
         ef_embedding := None;
         ef_face_location := None;
         ef_metadata := None;
         ef_error := Some "Face too small — move closer to camera"%string;
         ef_error_code := Some ERROR_FACE_TOO_SMALL |})
   /\ ((ratio <? ef_min_face_area_ratio request) = false ->
       forall encoding encodings,
         face_encodings image_np [loc] (ef_num_jitters request) "small"
         = Ok (encoding :: encodings) ->
         encode_face request
         = {| ef_success := true;
              ef_embedding := Some encoding;
              ef_face_location := Some loc;
              ef_metadata :=
                Some {| em_face_area_ratio := ratio;
                        em_image_dimensions := [w; h] |};
              ef_error := None;
              ef_error_code := None |}))
  /\ (forall msg,
        truediv (face_area loc) (h * w) = Raise (OtherError msg) ->
        encode_face request
        = {| ef_success := false;
             ef_embedding := None;
             ef_face_location := None;
             ef_metadata := None;
             ef_error := Some ("Processing error: " ++ msg)%string;
             ef_error_code := Some ERROR_PROCESSING |}).
Proof.
  intros Hb Ho Hl Hv h w ratio. subst h w ratio.
  unfold encode_face. rewrite Hb. unfold encode_face_try. rewrite Ho. cbn.
  destruct (image_shape image_np) as [h w]. cbn [fst snd] in *.
  rewrite Hl. cbn.
  assert (Hgate : validate_single request
                  && (1 <? List.length (loc :: others))%nat = false).
  { destruct Hv as [-> | ->]; [reflexivity | apply andb_false_r]. }
  cbn in Hgate. rewrite Hgate. split.
  - intros Harea Hfit Hloc. rewrite (@truediv_fits _ _ Harea Hloc Hfit). cbn.
    split; intros Hr; rewrite Hr; [reflexivity|].
    intros encoding encodings He. now rewrite He.
  - intros msg Hdiv. rewrite Hdiv. reflexivity.
Qed.

Lemma detect_loop_kept request image_area items : forall faces faces',
  for_each (detect_body request image_area) faces items = Ok faces' ->
  Forall (fun info =>
            (dfi_face_area_ratio info <? df_min_face_area_ratio request) = false)
    faces ->
  Forall (fun info =>
            (dfi_face_area_ratio info <? df_min_face_area_ratio request) = false)
    faces'
  /\ (List.length faces' <= List.length faces + List.length items)%nat.
Proof.
  induction items as [|[loc enc] items IH]; intros faces faces'; cbn.
  - intros [= <-] H. split; [exact H | lia].
  - destruct (truediv (face_area loc) image_area) as [r|e]; cbn; [|discriminate].
    destruct (r <? df_min_face_area_ratio request) eqn:Hr; intros Hloop HF.
    + destruct (IH _ _ Hloop HF). split; [assumption | lia].
    + destruct (IH _ _ Hloop) as [H1 H2].
      * apply Forall_app. split; [exact HF|]. now repeat constructor.
      * split; [exact H1|]. rewrite length_app in H2. cbn in H2. lia.
Qed.

(** X17.  Every response of [detect_faces] is complete and gated: a success
    carries a list of faces and its length as the count, no error, and no
    face of the list has an area ratio below the minimum; a failure carries
    an error message and neither faces nor a count. *)
Theorem detect_faces_response_complete (P : Provider)
  (request : DetectFacesRequest) :
  let r := detect_faces request in
  (df_success r = true
   /\ (exists faces,
         df_faces r = Some faces
         /\ df_count r = Some (List.length faces)
         /\ Forall (fun info =>
                      (dfi_face_area_ratio info
                       <? df_min_face_area_ratio request) = false) faces)
   /\ df_error r = None)
  \/ (df_success r = false
      /\ df_faces r = None /\ df_count r = None
      /\ exists msg, df_error r = Some msg).
Proof.
  cbv zeta. unfold detect_faces.
  destruct (b64decode (df_image_base64 request)) as [image_bytes|e];
    [|solve [right; cbn; repeat split; eauto]].
  destruct (detect_faces_try request image_bytes) as [response|e] eqn:E;
    [|solve [right; cbn; repeat split; eauto]].
  left. unfold detect_faces_try, bind in E.
  destruct (image_open image_bytes) as [image_np|]; [|discriminate].
  destruct (image_shape image_np) as [h w].
  destruct (face_locations image_np 1 (df_model request)) as [locations|];
    [|discriminate].
  destruct locations as [|loc locations].
  - injection E as <-. cbn. repeat split. exists []. repeat split. constructor.
  - destruct (face_encodings _ _ _ _) as [encodings|]; [|discriminate].
    destruct (for_each _ _ _) as [faces|] eqn:Hloop; [|discriminate].
    injection E as <-. cbn. repeat split. exists faces. repeat split.
    eapply detect_loop_kept; [exact Hloop | constructor].
Qed.

Lemma no_face_located_witness :
  ef_error_code (encode_face (P := no_face_provider) two_faces_encode)
  = Some ERROR_NO_FACE
  /\ df_count (detect_faces (P := no_face_provider) two_faces_detect)
     = Some 0%nat.
Proof.
  destruct (no_face_located no_face_provider "image"%string
              (image_np := tt) eq_refl)
    as [He Hd].
  rewrite (He two_faces_encode eq_refl eq_refl).
  rewrite (Hd two_faces_detect eq_refl eq_refl). split; reflexivity.
Defined.

Lemma encode_face_first_face_witness :
  ef_face_location (encode_face (P := two_faces_provider) first_face_encode)
  = Some {| top := 0; right := 50; bottom := 50; left := 0 |}.
Proof.
  destruct (encode_face_first_face two_faces_provider first_face_encode
              (image_bytes := "image"%string) (image_np := tt)
              (loc := {| top := 0; right := 50; bottom := 50; left := 0 |})
              (others := [ {| top := 0; right := 10; bottom := 10; left := 0 |} ])
              eq_refl eq_refl eq_refl (or_introl eq_refl))
    as [H _].
  destruct H as [_ H]; try (cbn; lia).
  rewrite (H eq_refl [float_of_Z 50] [] eq_refl). reflexivity.
Defined.

(** * Further properties: enrolment *)

Lemma distance_self q : Forall finite q -> distance q q = Ok 0.
Proof.
  intros Hq. rewrite distance_same_length by reflexivity.
  unfold np_linalg_norm, np_dot_self. now rewrite dot_zip_sub_diag.
Qed.

(** On finite components a representative distance that evaluates is a
    number of positive sign, at most every distance of the identity. *)
Lemma min_distance_finite q c d :
  Forall finite q ->
  (forall e, In e (embeddings c) -> Forall finite e) ->
  min_distance q c = Ok d ->
  nonneg d
  /\ forall e d', In e (embeddings c) -> distance q e = Ok d' ->
                  (d <=? d') = true.
Proof.
  intros Hq Hfin. unfold min_distance.
  destruct (comprehension (distance q) (embeddings c)) as [ds|err] eqn:E; cbn;
    [|discriminate].
  intros [= <-]. apply comprehension_Ok_inv in E.
  assert (Hnn : Forall nonneg ds).
  { apply Forall_forall. intros x Hx.
    destruct (@Forall2_Ok_In_r _ _ (distance q) _ _ _ E Hx) as (e & He & Hd).
    exact (distance_nonneg Hq (Hfin e He) Hd). }
  assert (Hn : Forall number ds)
    by (eapply Forall_impl; [|exact Hnn]; apply nonneg_number).
  split.
  - destruct ds as [|d ds]; [exact nonneg_infinity|].
    rewrite Forall_forall in Hnn. apply Hnn, min_or_inf_In. discriminate.
  - intros e d' He Hd'. pose proof (min_or_inf_leb Hn) as Hle.
    rewrite Forall_forall in Hle. apply Hle.
    exact (@Forall2_Ok_In_l _ _ (distance q) _ _ _ _ E He Hd').
Qed.

(** X18.  An enrolled embedding matches itself: on finite components, when
    the query is one of the reference embeddings of an identity of the
    gallery, the call succeeds and the threshold is above zero, the match is
    ["confident"] at distance [0] with confidence [1], and the identity
    reported is one of the gallery at distance [0] of the query. *)
Theorem enrolled_embedding_matches_itself (request : MatchFacesRequest)
  (c : CandidateEmbeddings) :
  let q := query_embedding request in
  let g := candidate_embeddings request in
  finite_components q g ->
  In c g -> In q (embeddings c) ->
  mf_success (match_faces request) = true ->
  (0 <? threshold request) = true ->
  exists r c',
    mf_match (match_faces request) = Some r
    /\ mr_distance r = 0
    /\ mr_confidence r = 1
    /\ mr_status r = "confident"%string
    /\ In c' g
    /\ mr_student_id r = Some (student_id c')
    /\ min_distance q c' = Ok 0.
Proof.
  intros q g [Hq Hfin] Hc Hin Hs Ht.
  destruct (match_faces_Ok_inv request Hs) as (st & Hloop & ->).
  destruct (match_loop_Ok_inv request Hloop) as (Hrep & Hsel & _).
  fold q g in Hrep, Hsel.
  assert (Hrc : representative q c = 0).
  { destruct (min_distance_finite c Hq (fun e => Hfin c e Hc) (Hrep c Hc))
      as [Hnn Hle].
    apply nonneg_antisym; auto using nonneg_zero.
    - apply (Hle q 0 Hin). now apply distance_self.
    - now apply nonneg_leb. }
  destruct (select_first student_id (representative q) (xs := g))
    as (g1 & c' & g2 & Hg & Hs' & Hlt & H1 & H2).
  { apply Exists_exists. exists c. split; [exact Hc|]. now rewrite Hrc. }
  rewrite Hs' in Hsel. injection Hsel as Hbm Hbd.
  assert (Hc' : In c' g) by (rewrite Hg; apply in_elt).
  assert (Hzero : representative q c' = 0).
  { destruct (min_distance_finite c' Hq (fun e => Hfin c' e Hc') (Hrep c' Hc'))
      as [Hnn _].
    apply nonneg_antisym; auto using nonneg_zero.
    - rewrite <- Hrc. rewrite Hg in Hc. apply in_app_or in Hc.
      rewrite Forall_forall in H1, H2.
      assert (Hn : number (representative q c)) by (now rewrite Hrc).
      destruct Hc as [Hc|[<-|Hc]].
      + now apply ltb_leb, H1.
      + apply leb_refl. exact (proj1 (ltb_number Hlt)).
      + now apply H2.
    - now apply nonneg_leb. }
  rewrite Hzero in Hbd.
  eexists _, c'. rewrite match_respond_match by (now rewrite Hbd).
  rewrite Hbd, Ht, Hbm. repeat split; auto.
  rewrite <- Hzero. now apply Hrep.
Qed.

Lemma enrolled_embedding_matches_itself_witness :
  exists r, mf_match (match_faces (spec_request [10; 10])) = Some r
            /\ mr_distance r = 0
            /\ mr_status r = "confident"%string.
Proof.
  destruct (enrolled_embedding_matches_itself (spec_request [10; 10])
              {| student_id := "S2"; embeddings := [[10; 10]] |})
    as (r & c' & Hr & Hd & _ & Hst & _).
  - split; [repeat constructor|].
    intros c e [<-|[<-|[]]] [<-|[]]; repeat constructor.
  - right. now left.
  - now left.
  - reflexivity.
  - reflexivity.
  - exists r. auto.
Defined.

(** X19.  Enrolling one more identity at the end of the gallery keeps a
    confident match: when the call on the longer gallery succeeds, its
    match is ["confident"] too, at a distance that is at most the former
    one; it is the former match unchanged unless the new identity is
    strictly closer, in which case the new identity is reported. *)
Theorem enrolling_keeps_confident_match (request : MatchFacesRequest)
  (c : CandidateEmbeddings) (r : MatchResult) :
  let request' :=
    with_gallery request (candidate_embeddings request ++ [c]) in
  mf_match (match_faces request) = Some r ->
  mr_status r = "confident"%string ->
  mf_success (match_faces request') = true ->
  exists r',
    mf_match (match_faces request') = Some r'
    /\ mr_status r' = "confident"%string
    /\ (mr_distance r' <=? mr_distance r) = true
    /\ (r' = r
        \/ (mr_student_id r' = Some (student_id c)
            /\ (mr_distance r' <? mr_distance r) = true)).
Proof.
  intros request' Hr Hst Hs'.
  destruct (match_faces_Ok_inv request' Hs') as (st' & Hloop' & ->).
  destruct (match_loop_Ok_inv request' Hloop') as (Hrep' & Hsel' & _).
  cbn [request' with_gallery query_embedding candidate_embeddings] in Hrep', Hsel'.
  unfold match_faces in Hr.
  destruct (match_loop request) as [st|e] eqn:Hloop; [|discriminate].
  destruct (match_loop_Ok_inv request Hloop) as (_ & Hsel & _).
  unfold select in Hsel'. rewrite fold_left_app in Hsel'.
  fold (select student_id (representative (query_embedding request))
          (None, infinity) (candidate_embeddings request)) in Hsel'.
  rewrite <- Hsel in Hsel'. cbn [fold_left] in Hsel'.
  unfold select_step in Hsel'. cbn [snd] in Hsel'.
  destruct (best_distance st <? infinity) eqn:Hinf;
    [|now rewrite match_respond_no_match in Hr].
  rewrite match_respond_match in Hr by exact Hinf. injection Hr as <-.
  cbn [mr_status mr_distance mr_student_id] in *.
  destruct (best_distance st <? threshold request) eqn:Hthr; [|discriminate].
  destruct (representative (query_embedding request) c <? best_distance st)
    eqn:Hnew; injection Hsel' as Hbm Hbd.
  - assert (Hinf' : (best_distance st' <? infinity) = true)
      by (rewrite Hbd; exact (ltb_trans Hnew Hinf)).
    assert (Hthr' : (best_distance st' <? threshold request) = true)
      by (rewrite Hbd; exact (ltb_trans Hnew Hthr)).
    eexists. rewrite match_respond_match by exact Hinf'.
    split; [reflexivity|]. cbn [mr_status mr_distance mr_student_id
                                request' with_gallery threshold].
    rewrite Hthr', Hbd, Hbm. repeat split.
    + now apply ltb_leb.
    + right. split; [reflexivity | exact Hnew].
  - assert (Hinf' : (best_distance st' <? infinity) = true)
      by (rewrite Hbd; exact Hinf).
    eexists. rewrite match_respond_match by exact Hinf'.
    split; [reflexivity|]. cbn [mr_status mr_distance mr_student_id
                                request' with_gallery threshold].
    rewrite Hbd, Hbm, Hthr. repeat split.
    + apply leb_refl. exact (proj1 (ltb_number Hinf)).
    + now left.
Qed.

Lemma enrolling_keeps_confident_match_witness :
  exists r',
    mf_match (match_faces
                (with_gallery (spec_request [0; 0])
                   (spec_gallery
                      ++ [ {| student_id := "S3"; embeddings := [[0; 0]] |} ])))
    = Some r'
    /\ mr_student_id r' = Some "S1"%string.
Proof.
  destruct (enrolling_keeps_confident_match (spec_request [0; 0])
              {| student_id := "S3"; embeddings := [[0; 0]] |}
              (r := {| mr_student_id := Some "S1"%string;
                       mr_distance := 0;
                       mr_confidence := 1;
                       mr_status := "confident" |}))
    as (r' & Hr' & _ & _ & [-> | [_ Hlt]]); try reflexivity.
  - eexists. split; [exact Hr' | reflexivity].
  - exfalso. vm_compute in Hr'.
    apply (f_equal (fun o => match o with
                             | Some x => mr_distance x <? 0
                             | None => true
                             end)) in Hr'.
    cbn in Hlt. rewrite Hlt in Hr'. vm_compute in Hr'. discriminate.
Defined.

(** * Further properties: symmetry of the distance *)

Lemma dot_map_sub_comm x (b : Embedding) : forall acc,
  fold_left (fun acc v => acc + v * v) (map (fun y => x - y) b) acc
  = fold_left (fun acc v => acc + v * v) (map (fun y => y - x) b) acc.
Proof.
  induction b as [|y b IH]; intros acc; cbn; [reflexivity|].
  rewrite (sub_square_comm x y). apply IH.
Qed.

(** X20.  The distance is symmetric whenever it evaluates, whatever the
    components and also when an embedding of length one is broadcast. *)
Theorem distance_symmetric (a b : Embedding) (d : float) :
  distance a b = Ok d -> distance b a = Ok d.
Proof.
  unfold distance, np_sub. rewrite (Nat.eqb_sym (List.length b)).
  destruct (Nat.eqb (List.length a) (List.length b)) eqn:E; cbn.
  - intros [= <-]. unfold np_linalg_norm, np_dot_self.
    now rewrite dot_zip_sub_comm.
  - destruct a as [|x [|x' a]], b as [|y [|y' b]]; cbn in E |- *;
      try discriminate; intros [= <-]; try reflexivity;
      unfold np_linalg_norm, np_dot_self; f_equal; f_equal.
    + symmetry. exact (dot_map_sub_comm x (y :: y' :: b) 0).
    + exact (dot_map_sub_comm y (x :: x' :: a) 0).
Qed.

Lemma distance_symmetric_witness :
  distance [0.1] [0.1; 0.1] = Ok 0.
Proof.
  apply distance_symmetric. vm_compute. reflexivity.
Defined.
